(** * InsightGPT: the retrieval core, embedded and verified

    A shallow embedding of the chunker ([utils/document_processor.py]),
    the embedding store ([utils/embeddings.py]) and the prompt helpers
    ([utils/openai_helper.py]), then of the rest of the sources (the upload
    path, the key check, the completion calls and the session of
    [app.py]), followed by the properties proved of them.

    Conventions.
    - A Python [str] is a list of code points; code points are the 256
      values of [ascii] (Latin-1), which covers every character the
      sources test for.
    - A Python [int] is a [Z].
    - A [while] loop that the source does not bound is run with fuel and
      returns [None] when the fuel is spent.
    - A [try/except] is an [option] inside and a default outside. *)

From Stdlib Require Import ZArith List Ascii String Bool Lia Floats Uint63 DecimalString.
From stdpp Require Import base option list gmap strings.
Import ListNotations.

Open Scope Z_scope.

(** ** Python built-ins used by the sources *)

Module Py.

Definition str := list ascii.

(** A literal. *)
Definition lit (s : string) : str := list_ascii_of_string s.

Definition nl : ascii := ascii_of_nat 10.

(** [len(s)] *)
Definition len {A} (s : list A) : Z := Z.of_nat (length s).

(** [c.isspace()] on the Latin-1 range: TAB..CR, FS..US, SPACE, NEL, NBSP. *)
Definition isspace (c : ascii) : bool :=
  let n := nat_of_ascii c in
  ((9 <=? n) && (n <=? 13) || (28 <=? n) && (n <=? 32) || (n =? 133) || (n =? 160))%nat.

(** [c.lower()] on the Latin-1 range: A..Z and the accented capitals
    0xC0..0xDE (the multiplication sign 0xD7 apart) move up by 32. *)
Definition lower_char (c : ascii) : ascii :=
  let n := nat_of_ascii c in
  if ((65 <=? n) && (n <=? 90) || (192 <=? n) && (n <=? 222) && negb (n =? 215))%nat
  then ascii_of_nat (n + 32) else c.

(** [s.lower()] *)
Definition lower (s : str) : str := map lower_char s.

(** [s.lstrip()], [s.rstrip()], [s.strip()] *)
Fixpoint lstrip (s : str) : str :=
  match s with
  | c :: s' => if isspace c then lstrip s' else s
  | [] => []
  end.

Definition rstrip (s : str) : str := rev (lstrip (rev s)).

Definition strip (s : str) : str := rstrip (lstrip s).

(** A slice bound as Python clamps it: a negative bound counts from the
    end, and the result is clamped to [0, len]. *)
Definition clamp_index (n i : Z) : Z :=
  if i <? 0 then Z.max (i + n) 0 else Z.min i n.

(** [s[a:b]] *)
Definition slice {A} (s : list A) (a b : Z) : list A :=
  let lo := clamp_index (len s) a in
  let hi := clamp_index (len s) b in
  firstn (Z.to_nat (hi - lo)) (skipn (Z.to_nat lo) s).

(** [s[a:]] for a literal [a >= 0] *)
Definition slice_from {A} (s : list A) (a : nat) : list A := skipn a s.

(** [s[-k:]] for a literal [k > 0]: the last [k] elements, or all of them. *)
Definition slice_last {A} (s : list A) (k : nat) : list A :=
  skipn (length s - k) s.

(** [s[:n]] for a literal [n >= 0] *)
Definition slice_to {A} (s : list A) (n : nat) : list A := firstn n s.

(** [s.startswith(p)] *)
Fixpoint startswith (s p : str) : bool :=
  match p, s with
  | [], _ => true
  | a :: p', c :: s' => if Ascii.eqb a c then startswith s' p' else false
  | _ :: _, [] => false
  end.

(** [p in s] *)
Fixpoint contains (s p : str) : bool :=
  startswith s p ||
  match s with
  | [] => false
  | _ :: s' => contains s' p
  end.

(** The highest index at which [p] occurs in [s]. *)
Fixpoint rfind_nat (s p : str) : option nat :=
  let later := match s with
               | [] => None
               | _ :: s' => S <$> rfind_nat s' p
               end in
  match later with
  | Some i => Some i
  | None => if startswith s p then Some 0%nat else None
  end.

(** [s.rfind(p)]: that index, or -1. *)
Definition rfind (s p : str) : Z :=
  match rfind_nat s p with
  | Some i => Z.of_nat i
  | None => -1
  end.

(** [s.split(sep)] for a one-character separator: never empty. *)
Fixpoint split_on (sep : ascii) (s : str) : list str :=
  match s with
  | [] => [[]]
  | c :: s' =>
      if Ascii.eqb c sep then [] :: split_on sep s'
      else match split_on sep s' with
           | w :: ws => (c :: w) :: ws
           | [] => [[c]]
           end
  end.

(** [s.split()]: the maximal runs of non-whitespace. The accumulator is
    the run being read, reversed. *)
Fixpoint split_ws_acc (cur : str) (s : str) : list str :=
  match s with
  | [] => match cur with [] => [] | _ => [rev cur] end
  | c :: s' =>
      if isspace c
      then match cur with
           | [] => split_ws_acc [] s'
           | _ => rev cur :: split_ws_acc [] s'
           end
      else split_ws_acc (c :: cur) s'
  end.

Definition split_ws (s : str) : list str := split_ws_acc [] s.

(** [sep.join(l)] *)
Fixpoint join (sep : str) (l : list str) : str :=
  match l with
  | [] => []
  | [w] => w
  | w :: ws => w ++ sep ++ join sep ws
  end.

(** [x or d] for an optional integer: [None] and [0] are both falsy. *)
Definition or_default (x : option Z) (d : Z) : Z :=
  match x with
  | Some v => if v =? 0 then d else v
  | None => d
  end.

(** [l[i]]: a negative index counts from the end; out of range raises. *)
Definition index {A} (l : list A) (i : Z) : option A :=
  if (0 <=? i) && (i <? len l) then l !! Z.to_nat i
  else if (i <? 0) && (- len l <=? i) then l !! Z.to_nat (i + len l)
  else None.

End Py.

Import Py.

(** ** [config.py] *)

Module Config.

Definition DEFAULT_MODEL : str := lit "gpt-4".
Definition CHUNK_SIZE : Z := 1000.
Definition CHUNK_OVERLAP : Z := 200.
Definition EMBEDDING_DIMENSION : nat := 1536.
Definition TOP_K_RESULTS : Z := 3.

End Config.

(** ** [DocumentProcessor.chunk_text] *)

Module Chunker.

(** The sentence-terminal markers, in the order the source tries them. *)
Definition puncts : list str :=
  [ ["."; " "]%char; ["."%char; nl]; ["!"; " "]%char; ["!"%char; nl];
    ["?"; " "]%char; ["?"%char; nl] ].

(** [last_punct > chunk_size * 0.5], an integer against a float: exact
    as [2 * last_punct > chunk_size] while [chunk_size] is below 2^53. *)
Definition past_half (last_punct chunk_size : Z) : bool :=
  chunk_size <? 2 * last_punct.

(** The [for punct in ...] loop over a window: the offset just after the
    first marker, in list order, whose last occurrence lies past the
    half of [chunk_size]; [None] when the loop ends without a [break]. *)
Fixpoint find_cut (window : str) (chunk_size : Z) (ps : list str) : option Z :=
  match ps with
  | [] => None
  | punct :: ps' =>
      let last_punct := rfind window punct in
      if past_half last_punct chunk_size
      then Some (last_punct + len punct)
      else find_cut window chunk_size ps'
  end.

(** The value of [end] when the chunk is cut. *)
Definition window_end (text : str) (chunk_size start : Z) : Z :=
  let end_ := start + chunk_size in
  if end_ <? len text then
    match find_cut (slice text start end_) chunk_size puncts with
    | Some off => start + off
    | None => end_
    end
  else end_.

(** The chunk a window yields, before the emptiness test. *)
Definition window_chunk (text : str) (chunk_size start : Z) : str :=
  strip (slice text start (window_end text chunk_size start)).

(** [if chunk: chunks.append(chunk)] *)
Definition append_chunk (chunks : list str) (chunk : str) : list str :=
  match chunk with
  | [] => chunks
  | _ => chunks ++ [chunk]
  end.

(** [start = end - overlap] *)
Definition next_start (text : str) (chunk_size overlap start : Z) : Z :=
  window_end text chunk_size start - overlap.

(** One iteration of the [while] body on the pair [(start, chunks)]. *)
Definition loop_body (text : str) (chunk_size overlap : Z)
    (st : Z * list str) : Z * list str :=
  (next_start text chunk_size overlap st.1,
   append_chunk st.2 (window_chunk text chunk_size st.1)).

(** [while start < len(text)]: [None] when the fuel runs out. *)
Fixpoint chunk_loop (fuel : nat) (text : str) (chunk_size overlap : Z)
    (st : Z * list str) : option (list str) :=
  if st.1 <? len text then
    match fuel with
    | O => None
    | S fuel' =>
        chunk_loop fuel' text chunk_size overlap
          (loop_body text chunk_size overlap st)
    end
  else Some st.2.

(** [chunk_text(text, chunk_size, overlap)] *)
Definition chunk_text (fuel : nat) (text : str)
    (chunk_size overlap : option Z) : option (list str) :=
  let chunk_size := or_default chunk_size Config.CHUNK_SIZE in
  let overlap := or_default overlap Config.CHUNK_OVERLAP in
  if len text <=? chunk_size then Some [text]
  else chunk_loop fuel text chunk_size overlap (0, []).

End Chunker.

(** ** [utils/embeddings.py] *)

Module Embeddings.

(** What numpy and FAISS compute on float32 rows. Floating point is not
    modelled: the rows, their scores and the operations on them are an
    interface, and every property below holds for each implementation. *)
Class Numeric := {
  vec : Type;                          (* one embedding *)
  score : Type;                        (* an inner product *)
  vdim : vec → nat;                    (* its number of components *)
  normalize_L2 : vec → vec;            (* [faiss.normalize_L2], per row *)
  inner : vec → vec → score;
  score_ltb : score → score → bool;    (* [a < b] *)
  pad_score : score                    (* written beside a label of -1 *)
}.

(** The embedding provider, [openai.embeddings.create]: a request changes
    the outside world and answers one vector per item, or raises. *)
Class Provider `{Numeric} := {
  World : Type;
  embed_call : World → list str → World * option (list vec)
}.

Section Store.
Context `{P : Provider}.

(** [faiss.IndexFlatIP] *)
Record Index := { d : nat; rows : list vec }.

(** The fields of [EmbeddingStore] that the methods read or write. *)
Record Store := {
  chunks : list str;
  index : option Index;
  dimension : nat
}.

(** [EmbeddingStore.__init__] *)
Definition init : Store :=
  {| chunks := []; index := None; dimension := Config.EMBEDDING_DIMENSION |}.

Definition set_chunks (st : Store) (cs : list str) : Store :=
  {| chunks := cs; index := index st; dimension := dimension st |}.

Definition set_index (st : Store) (ix : Index) : Store :=
  {| chunks := chunks st; index := Some ix; dimension := dimension st |}.

(** [_get_embeddings_batch] *)
Definition _get_embeddings_batch (w : World) (texts : list str)
  : World * option (list vec) := embed_call w texts.

(** [range(0, n, step)] *)
Definition range_step (n step : nat) : list nat :=
  map (λ j, j * step)%nat (seq 0 ((n + step - 1) / step)).

Definition batch_size : nat := 10.

(** [text_chunks[i:i + batch_size]] for [i] in [range(0, len, batch_size)] *)
Definition batches (text_chunks : list str) : list (list str) :=
  map (λ i, slice text_chunks (Z.of_nat i) (Z.of_nat (i + batch_size)))
      (range_step (length text_chunks) batch_size).

(** The batch loop: [None] as soon as one request raises. *)
Fixpoint embed_batches (w : World) (bs : list (list str)) (embeddings : list vec)
  : World * option (list vec) :=
  match bs with
  | [] => (w, Some embeddings)
  | batch :: bs' =>
      match _get_embeddings_batch w batch with
      | (w', Some batch_embeddings) =>
          embed_batches w' bs' (embeddings ++ batch_embeddings)
      | (w', None) => (w', None)
      end
  end.

(** [np.array(embeddings, dtype='float32')] followed by
    [faiss.normalize_L2]: raises on no row and on ragged rows. *)
Definition np_array (embeddings : list vec) : option (list vec) :=
  match embeddings with
  | [] => None
  | v :: vs =>
      if forallb (λ u, vdim u =? vdim v)%nat vs
      then Some (map normalize_L2 embeddings) else None
  end.

Definition IndexFlatIP (dim : nat) : Index := {| d := dim; rows := [] |}.

(** [index.add(x)]: asserts the width of [x]. *)
Definition index_add (ix : Index) (x : list vec) : option Index :=
  if forallb (λ u, vdim u =? d ix)%nat x
  then Some {| d := d ix; rows := rows ix ++ x |} else None.

(** [create_embeddings]: the new world, the store as the call leaves it,
    and the flag returned. *)
Definition create_embeddings (w : World) (st : Store) (text_chunks : list str)
  : World * Store * bool :=
  match text_chunks with
  | [] => (w, st, false)
  | _ =>
      let st := set_chunks st text_chunks in
      match embed_batches w (batches text_chunks) [] with
      | (w', None) => (w', st, false)
      | (w', Some embeddings) =>
          match np_array embeddings with
          | None => (w', st, false)
          | Some embeddings_array =>
              let st := set_index st (IndexFlatIP (dimension st)) in
              match index_add (IndexFlatIP (dimension st)) embeddings_array with
              | None => (w', st, false)
              | Some ix => (w', set_index st ix, true)
              end
          end
      end
  end.

(** Rank order: a hit goes after every hit that scores at least as much. *)
Fixpoint insert_hit (h : Z * score) (l : list (Z * score)) : list (Z * score) :=
  match l with
  | [] => [h]
  | x :: l' => if score_ltb x.2 h.2 then h :: l else x :: insert_hit h l'
  end.

Definition ranked (ix : Index) (q : vec) : list (Z * score) :=
  foldl (λ acc h, insert_hit h acc) []
        (imap (λ i v, (Z.of_nat i, inner v q)) (rows ix)).

(** [index.search(x, k)] for one query row: asserts the width and
    [k > 0]; answers exactly [k] pairs, best first, padded with -1. *)
Definition index_search (ix : Index) (q : vec) (k : Z) : option (list (Z * score)) :=
  if (vdim q =? d ix)%nat && (0 <? k) then
    let hits := firstn (Z.to_nat k) (ranked ix q) in
    Some (hits ++ repeat (-1, pad_score) (Z.to_nat k - length hits))
  else None.

(** The result loop of [search]; [None] when [self.chunks[idx]] raises. *)
Fixpoint collect (cs : list str) (hits : list (Z * score))
    (results : list (str * score)) : option (list (str * score)) :=
  match hits with
  | [] => Some results
  | (idx, distance) :: hits' =>
      if idx <? len cs then
        match Py.index cs idx with
        | Some c => collect cs hits' (results ++ [(c, distance)])
        | None => None
        end
      else collect cs hits' results
  end.

(** The body of [search] under its [try]. *)
Definition search_body (w : World) (st : Store) (query : str) (top_k : option Z)
  : World * option (list (str * score)) :=
  match index st, chunks st with
  | None, _ | _, [] => (w, Some [])
  | Some ix, _ =>
      let top_k := or_default top_k Config.TOP_K_RESULTS in
      let top_k := Z.min top_k (len (chunks st)) in
      match _get_embeddings_batch w [query] with
      | (w', None) => (w', None)
      | (w', Some []) => (w', None)
      | (w', Some (query_embedding :: _)) =>
          let query_vector := normalize_L2 query_embedding in
          match index_search ix query_vector top_k with
          | None => (w', None)
          | Some hits => (w', collect (chunks st) hits [])
          end
      end
  end.

(** [search]: whatever is raised inside becomes the empty list. *)
Definition search (w : World) (st : Store) (query : str) (top_k : option Z)
  : World * list (str * score) :=
  match search_body w st query top_k with
  | (w', Some results) => (w', results)
  | (w', None) => (w', [])
  end.

(** [is_ready] *)
Definition is_ready (st : Store) : bool :=
  match index st with
  | Some _ => 0 <? len (chunks st)
  | None => false
  end.

(** [get_all_chunks] *)
Definition get_all_chunks (st : Store) : list str := chunks st.

End Store.

End Embeddings.

(** ** [merge_overlapping_chunks] *)

Module Dedup.

(** [' '.join(chunk.lower().split())] *)
Definition normalize (chunk : str) : str :=
  join (lit " ") (split_ws (lower chunk)).

(** [set(s.split())] *)
Definition word_set (s : str) : gset str := list_to_set (split_ws s).

(** A set size as a float; sizes stay far below 2^63. *)
Definition to_float (n : nat) : float :=
  PrimFloat.of_uint63 (Uint63.of_Z (Z.of_nat n)).

(** [total > 0 and overlap / total > similarity_threshold] for one
    remembered chunk. *)
Definition too_similar (similarity_threshold : float) (normalized seen_chunk : str) : bool :=
  let overlap := size (word_set normalized ∩ word_set seen_chunk) in
  let total := size (word_set normalized ∪ word_set seen_chunk) in
  (0 <? total)%nat &&
  PrimFloat.ltb similarity_threshold (PrimFloat.div (to_float overlap) (to_float total)).

(** The [for seen_chunk in seen] loop with its [break]. *)
Definition is_duplicate (similarity_threshold : float) (normalized : str)
    (seen : gset str) : bool :=
  existsb (too_similar similarity_threshold normalized) (elements seen).

(** The [for chunk in chunks] loop, from the state [(unique_chunks, seen)];
    what it returns is what it appends to [unique_chunks]. *)
Fixpoint dedup_loop (similarity_threshold : float) (seen : gset str)
    (chunks : list str) : list str :=
  match chunks with
  | [] => []
  | chunk :: rest =>
      let normalized := normalize chunk in
      if is_duplicate similarity_threshold normalized seen
      then dedup_loop similarity_threshold seen rest
      else chunk :: dedup_loop similarity_threshold ({[ normalized ]} ∪ seen) rest
  end.

(** [merge_overlapping_chunks(chunks, similarity_threshold)] *)
Definition merge_overlapping_chunks (chunks : list str)
    (similarity_threshold : float) : list str :=
  if (length chunks <=? 1)%nat then chunks
  else dedup_loop similarity_threshold ∅ chunks.

(** The default [similarity_threshold=0.8], as the binary64 nearest to it. *)
Definition default_threshold : float := 0x1.999999999999ap-1%float.

End Dedup.

(** ** [utils/openai_helper.py] *)

Module OpenAIHelper.

(** *** Token counting and truncation *)

(** [self.encoding], a tiktoken encoding: an interface, over any type
    of text. *)
Class Tokenizer (text : Type) := {
  token : Type;
  encode : text → list token;
  decode : list token → text
}.

Section Budget.
Context {text : Type} `{T : Tokenizer text}.

(** [count_tokens] *)
Definition count_tokens (t : text) : Z := len (encode t).

(** [max_tokens = 8000 if self.model == "gpt-4" else 3000]
    in [generate_summary] and [extract_insights]. *)
Definition summary_ceiling (model : str) : Z :=
  if bool_decide (model = lit "gpt-4") then 8000 else 3000.

(** [max_tokens = 6000 if self.model == "gpt-4" else 2500]
    in [generate_keywords]. *)
Definition keywords_ceiling (model : str) : Z :=
  if bool_decide (model = lit "gpt-4") then 6000 else 2500.

(** The truncation step the three callers share:
    [if token_count > max_tokens: text = decode(encode(text)[:max_tokens])]. *)
Definition truncate (max_tokens : Z) (t : text) : text :=
  let token_count := count_tokens t in
  if max_tokens <? token_count
  then decode (slice_to (encode t) (Z.to_nat max_tokens))
  else t.

(** The document text that [generate_summary] puts in its prompt. *)
Definition summary_text (model : str) (t : text) : text :=
  truncate (summary_ceiling model) t.

(** The document text that [generate_keywords] puts in its prompt. *)
Definition keywords_text (model : str) (t : text) : text :=
  truncate (keywords_ceiling model) t.

End Budget.

(** *** [_parse_insights] *)

Definition insights := gmap string (list str).

Definition empty_insights : gmap string (list str) :=
  <["entities" := []]> (<["themes" := []]> (<["action_items" := []]> ∅)).

(** Truthiness of [current_section]: [None] and the empty string are falsy. *)
Definition truthy (s : option string) : bool :=
  match s with
  | Some (String _ _) => true
  | _ => false
  end.

(** [insights[key].append(item)]: a missing key raises. *)
Definition append_item (m : gmap string (list str)) (key : string) (item : str)
  : option (gmap string (list str)) :=
  match m !! key with
  | Some l => Some (<[key := l ++ [item]]> m)
  | None => None
  end.

(** The loop state: [current_section] and the dictionary. *)
Definition parse_state : Type := option string * gmap string (list str).

(** The body of [for line in content.split('\n')]. *)
Definition parse_line (st : parse_state) (line : str) : option parse_state :=
  let '(current_section, m) := st in
  let line := strip line in
  if contains line (lit "KEY ENTITIES:") then Some (Some "entities"%string, m)
  else if contains line (lit "MAIN THEMES:") then Some (Some "themes"%string, m)
  else if contains line (lit "ACTION ITEMS:") then Some (Some "action_items"%string, m)
  else if startswith line (lit "- ") && truthy current_section then
    let item := strip (slice_from line 2) in
    match item with
    | [] => Some st
    | _ =>
        if bool_decide (lower item ≠ lit "none identified") then
          match current_section with
          | Some key => m' ← append_item m key item; Some (current_section, m')
          | None => None
          end
        else Some st
    end
  else Some st.

Fixpoint parse_lines (st : parse_state) (lines : list str) : option parse_state :=
  match lines with
  | [] => Some st
  | line :: rest => st' ← parse_line st line; parse_lines st' rest
  end.

(** [_parse_insights(content)]; [None] would be an exception. *)
Definition _parse_insights (content : str) : option (gmap string (list str)) :=
  snd <$> parse_lines (None, empty_insights) (split_on nl content).

(** *** [answer_question] *)

Record message := { role : str; content : str }.

Definition dq : ascii := ascii_of_nat 34.

Definition SYSTEM_PROMPT : str :=
  join [nl]
    [ lit "You are an intelligent assistant helping users understand documents. ";
      lit "                ";
      lit "Your task is to answer questions based on the provided document context. ";
      lit "";
      lit "Guidelines:";
      lit "- Answer based ONLY on the information in the provided context";
      lit "- If the answer is not in the context, say " ++ [dq] ++
        lit "I cannot find that information in the document" ++ [dq];
      lit "- Be clear, concise, and helpful";
      lit "- Cite specific parts of the document when relevant";
      lit "- If the question is ambiguous, ask for clarification" ].

(** [chat_history[-4:]] under [if chat_history:]: nothing for [None]. *)
Definition history_window (chat_history : option (list message)) : list message :=
  match chat_history with
  | Some h => slice_last h 4
  | None => []
  end.

(** The f-string of the final user turn. *)
Definition user_message (question : str) (context_chunks : list str) : str :=
  let context := join ([nl; nl] ++ lit "---" ++ [nl; nl]) context_chunks in
  lit "Context from document:" ++ [nl] ++ context ++ [nl; nl] ++
  lit "Question: " ++ question.

(** The [messages] list handed to [openai.chat.completions.create]. *)
Definition answer_messages (question : str) (context_chunks : list str)
    (chat_history : option (list message)) : list message :=
  [ {| role := lit "system"; content := SYSTEM_PROMPT |} ]
  ++ history_window chat_history
  ++ [ {| role := lit "user"; content := user_message question context_chunks |} ].

(** The generation provider: the text of the first choice, or an exception. *)
Class Generator := {
  chat_completion : str → list message → option str
}.

(** [answer_question]: [None] when the provider raises. *)
Definition answer_question `{Generator} (model question : str)
    (context_chunks : list str) (chat_history : option (list message)) : option str :=
  strip <$> chat_completion model (answer_messages question context_chunks chat_history).

End OpenAIHelper.

(** ** Concrete collaborators, for running the model *)

Module Toy.

Import Embeddings OpenAIHelper.

(** Integer rows with the integer dot product. Normalisation is the
    identity: the rows used below are unit vectors already. *)
Definition dot (u v : list Z) : Z :=
  foldr Z.add 0 (zip_with Z.mul u v).

Definition ZNumeric : Numeric :=
  {| vec := list Z; score := Z; vdim := length; normalize_L2 := id;
     inner := dot; score_ltb := Z.ltb; pad_score := -1 |}.

(** The unit vector of [n] components with its 1 at position [k]. *)
Definition unit_vec (n k : nat) : list Z :=
  repeat 0 k ++ [1] ++ repeat 0 (n - S k).

(** An embedding that tells texts apart by their length. *)
Definition toy_embedding (t : str) : list Z :=
  unit_vec Config.EMBEDDING_DIMENSION (length t `mod` Config.EMBEDDING_DIMENSION).

(** A provider that follows a script: each request consumes one entry,
    [true] for an answer and [false] for an exception; an exhausted
    script raises. *)
Definition scripted_call (w : list bool) (texts : list str)
  : list bool * option (list (list Z)) :=
  match w with
  | true :: w' => (w', Some (map toy_embedding texts))
  | false :: w' => (w', None)
  | [] => ([], None)
  end.

Definition Scripted : @Provider ZNumeric :=
  @Build_Provider ZNumeric (list bool) scripted_call.

(** A store built from two chunks, the provider answering. *)
Definition built_store : @Store ZNumeric :=
  (@create_embeddings ZNumeric Scripted [true] (@init ZNumeric)
     [lit "alpha"; lit "beta beta"]).1.2.

(** *** A byte-level tokenizer

    Tokens are the bytes of the UTF-8 encoding (a byte-pair encoding with
    an empty merge table); decoding replaces a malformed or cut sequence
    by U+FFFD, as tiktoken's [decode] does. Text is a list of Unicode
    code points. The overlong and surrogate checks are left out. *)

Definition utf8_encode_cp (c : N) : list N :=
  (if c <? 128 then [c]
   else if c <? 2048 then [192 + c / 64; 128 + c mod 64]
   else if c <? 65536 then [224 + c / 4096; 128 + (c / 64) mod 64; 128 + c mod 64]
   else [240 + c / 262144; 128 + (c / 4096) mod 64; 128 + (c / 64) mod 64;
         128 + c mod 64])%N.

Definition utf8_encode (t : list N) : list N := flat_map utf8_encode_cp t.

Definition is_continuation (b : N) : bool := ((128 <=? b) && (b <? 192))%N.

(** The payload of up to [k] continuation bytes at the head of [bs],
    how many were read, and the rest. *)
Fixpoint continuation (k : nat) (acc : N) (bs : list N) : N * nat * list N :=
  match k, bs with
  | S k', b :: bs' =>
      if is_continuation b then
        let '(v, n, rest) := continuation k' (acc * 64 + (b - 128))%N bs' in
        (v, S n, rest)
      else (acc, O, bs)
  | _, _ => (acc, O, bs)
  end.

(** The number of continuation bytes a lead byte announces, with its payload. *)
Definition lead (b : N) : option (nat * N) :=
  (if b <? 128 then Some (0%nat, b)
   else if (194 <=? b) && (b <? 224) then Some (1%nat, b - 192)
   else if (224 <=? b) && (b <? 240) then Some (2%nat, b - 224)
   else if (240 <=? b) && (b <? 245) then Some (3%nat, b - 240)
   else None)%N.

Definition REPLACEMENT : N := 65533.

Fixpoint utf8_decode_fuel (fuel : nat) (bs : list N) : list N :=
  match fuel, bs with
  | S fuel', b :: bs' =>
      match lead b with
      | Some (k, v0) =>
          let '(v, n, rest) := continuation k v0 bs' in
          (if (n =? k)%nat then v else REPLACEMENT) :: utf8_decode_fuel fuel' rest
      | None => REPLACEMENT :: utf8_decode_fuel fuel' bs'
      end
  | _, _ => []
  end.

Definition utf8_decode (bs : list N) : list N := utf8_decode_fuel (length bs) bs.

Definition ByteTokenizer : Tokenizer (list N) :=
  {| token := N; encode := utf8_encode; decode := utf8_decode |}.

End Toy.

(** ** Vocabulary for the chunker's properties *)

Module ChunkerSpec.

Import Chunker.

(** The marker [p] occurs in the window [w] at index [i]. *)
Definition occurs_at (w p : str) (i : Z) : Prop :=
  0 ≤ i ∧ startswith (skipn (Z.to_nat i) w) p = true.

(** [i] is the index of the last occurrence of [p] in [w]. *)
Definition last_occurrence (w p : str) (i : Z) : Prop :=
  occurs_at w p i ∧ ∀ j, occurs_at w p j → j ≤ i.

(** The cut as the specification words it: the last occurrence of any
    of the six markers decides, and it counts when it lies at or after
    the half of [chunk_size]. *)
Definition spec_last_marker (window : str) : Z :=
  foldr Z.max (-1) (map (rfind window) puncts).

Definition spec_window_end (text : str) (chunk_size start : Z) : Z :=
  let last := spec_last_marker (slice text start (start + chunk_size)) in
  if (0 <=? last) && (chunk_size <=? 2 * last)
  then start + last + 2
  else start + chunk_size.

(** No marker has its last occurrence in the window exactly on the half
    of [chunk_size]: on such a window "at or after the half" and "past the
    half" say the same. *)
Definition no_marker_at_half (window : str) (chunk_size : Z) : Prop :=
  ∀ (p : str) (i : Z), p ∈ puncts → last_occurrence window p i → 2 * i ≠ chunk_size.

(** The first and the last character of a text are not whitespace. *)
Definition starts_nonblank (text : str) : Prop := isspace <$> head text = Some false.
Definition ends_nonblank (text : str) : Prop := isspace <$> last text = Some false.

(** Two inputs: a text on which the loop stalls for [chunk_size = 10] and
    [overlap = 9], and a text of whitespace only. *)
Definition stalling_text : str := lit "aaaaaa. aaaaaaaa".
Definition blank_text : str := repeat " "%char 1001.

End ChunkerSpec.

(** ** Vocabulary for the store's properties *)

Module EmbeddingsSpec.

Import Embeddings.

(** A provider that honours its interface: one vector per text. *)
Definition one_per_text `{P : Provider} : Prop :=
  ∀ (w w' : World) (texts : list str) (vs : list vec),
    embed_call w texts = (w', Some vs) → length vs = length texts.

End EmbeddingsSpec.

(** ** Vocabulary for the parser's properties *)

Module InsightsSpec.

(** A stripped line that names one of the three sections. *)
Definition is_header (line : str) : bool :=
  contains line (lit "KEY ENTITIES:") || contains line (lit "MAIN THEMES:")
  || contains line (lit "ACTION ITEMS:").

Definition section_keys : gset string :=
  {[ "entities"%string; "themes"%string; "action_items"%string ]}.

(** [item] was read from a line of [lines] that starts with ["- "] once
    stripped, and that comes after a header line. *)
Definition item_from (lines : list str) (item : str) : Prop :=
  ∃ before line after header,
    lines = before ++ line :: after ∧
    startswith (strip line) (lit "- ") = true ∧
    item = strip (slice_from (strip line) 2) ∧
    header ∈ before ∧ is_header (strip header) = true.

(** What holds of every item of the result. *)
Definition item_ok (lines : list str) (item : str) : Prop :=
  item ≠ [] ∧ lower item ≠ lit "none identified" ∧ item_from lines item.

(** The loop invariant, after the lines [seen]: the dictionary has the
    three keys and holds good items only; the current section, when set,
    is one of the keys and was set by a header line. *)
Definition parse_inv (seen : list str) (st : OpenAIHelper.parse_state) : Prop :=
  dom st.2 = section_keys ∧
  (∀ key items item, st.2 !! key = Some items → item ∈ items → item_ok seen item) ∧
  (∀ key, st.1 = Some key →
     key ∈ section_keys ∧ ∃ header, header ∈ seen ∧ is_header (strip header) = true).

End InsightsSpec.

(** ** More of the sources *)

(** *** Further built-ins *)

Module PyMore.

(** [s.replace(a, b)] for one-character [a] and [b] *)
Definition replace_char (a b : ascii) (s : str) : str :=
  map (λ c, if Ascii.eqb c a then b else c) s.

(** [s.split(sep)] for a non-empty string [sep]: a scan from the left;
    [skip] counts the characters of a separator still to pass, [cur] is
    the piece being read, reversed. Never empty. *)
Fixpoint split_str_aux (sep : str) (skip : nat) (cur : str) (s : str) : list str :=
  match s with
  | [] => [rev cur]
  | c :: s' =>
      match skip with
      | S k => split_str_aux sep k cur s'
      | O =>
          if startswith s sep
          then rev cur :: split_str_aux sep (length sep - 1) [] s'
          else split_str_aux sep 0 (c :: cur) s'
      end
  end.

Definition split_str (sep : str) (s : str) : list str := split_str_aux sep 0 [] s.

(** Truthiness of a string. *)
Definition nonempty (s : str) : bool :=
  match s with
  | [] => false
  | _ => true
  end.

(** [l[-1]] of a list that [split] returned (never empty). *)
Definition last_piece (l : list str) : str := List.last l [].

End PyMore.

Import PyMore.

(** *** [config.py], [validate_api_key] *)

Module ConfigMore.

Definition MAX_FILE_SIZE_MB : Z := 10.

(** [Config.validate_api_key] *)
Definition validate_api_key (api_key : str) : bool :=
  if negb (nonempty api_key) then false
  else if bool_decide (api_key ∈ [lit "your_openai_api_key_here"; lit "sk-..."]) then false
  else if negb (startswith api_key (lit "sk-")) then false
  else true.

End ConfigMore.

(** *** [utils/document_processor.py], the rest *)

Module DocumentProcessor.

(** [validate_text_input]: the flag and the message. *)
Definition validate_text_input (text : str) : bool * str :=
  if negb (nonempty text) || negb (nonempty (strip text))
  then (false, lit "Text is empty")
  else if len (strip text) <? 50
  then (false, lit "Text is too short (minimum 50 characters)")
  else (true, []).

(** The dictionary that [get_text_stats] returns, with its four keys. *)
Record text_stats := {
  characters : Z;
  words : Z;
  sentences : Z;
  paragraphs : Z
}.

(** [[s.strip() for s in pieces if s.strip()]] *)
Definition nonblank_pieces (pieces : list str) : list str :=
  filter (λ p, nonempty p = true) (map strip pieces).

(** [get_text_stats] *)
Definition get_text_stats (text : str) : text_stats :=
  let words := split_ws text in
  let sentences :=
    split_on "."%char (replace_char "?"%char "."%char (replace_char "!"%char "."%char text)) in
  let sentences := nonblank_pieces sentences in
  {| characters := len text;
     words := len words;
     sentences := len sentences;
     paragraphs :=
       len (filter (λ p, nonempty (strip p) = true) (split_str [nl; nl] text)) |}.

(** The outcome of [file.seek(0); file.read().decode(encoding)]. *)
Inductive decoding :=
  | Decoded (text : str)
  | UnicodeDecodeError
  | OtherError.

(** What the file libraries do with an uploaded file. PyPDF2 and
    python-docx are outside the repository: a reader answers the texts it
    finds, or raises ([None]). *)
Class Readers := {
  uploaded : Type;
  file_name : uploaded → str;                      (* [uploaded_file.name] *)
  file_size : uploaded → Z;                        (* [uploaded_file.size], bytes *)
  (** [PyPDF2.PdfReader(file).pages], each with the outcome of
      [page.extract_text()]. *)
  pdf_pages : uploaded → option (list (option str));
  (** The [paragraph.text] of [Document(file).paragraphs]. *)
  docx_paragraphs : uploaded → option (list str);
  (** Reading the file in an encoding. *)
  decode_as : uploaded → str → decoding
}.

Section Extraction.
Context `{R : Readers}.

(** The page loop of [_extract_from_pdf]: a page that raises is skipped
    with a warning, an empty page adds nothing. *)
Fixpoint pdf_text (pages : list (option str)) (text : str) : str :=
  match pages with
  | [] => text
  | Some page_text :: rest =>
      if nonempty page_text
      then pdf_text rest (text ++ page_text ++ [nl; nl])
      else pdf_text rest text
  | None :: rest => pdf_text rest text
  end.

(** [_extract_from_pdf]; [None] is the exception it raises. *)
Definition _extract_from_pdf (file : uploaded) : option str :=
  pages ← pdf_pages file; Some (strip (pdf_text pages [])).

(** [_extract_from_docx] *)
Definition _extract_from_docx (file : uploaded) : option str :=
  paragraphs ← docx_paragraphs file;
  Some (strip (join [nl; nl]
                 (filter (λ p, nonempty (strip p) = true) paragraphs))).

Definition encodings : list str := [lit "utf-8"; lit "latin-1"; lit "cp1252"].

(** The encoding loop of [_extract_from_txt]: the next encoding is tried
    after a [UnicodeDecodeError] only. *)
Fixpoint try_encodings (file : uploaded) (encs : list str) : option str :=
  match encs with
  | [] => None
  | encoding :: rest =>
      match decode_as file encoding with
      | Decoded text => Some (strip text)
      | UnicodeDecodeError => try_encodings file rest
      | OtherError => None
      end
  end.

(** [_extract_from_txt] *)
Definition _extract_from_txt (file : uploaded) : option str :=
  try_encodings file encodings.

(** [file_size_mb > MAX_FILE_SIZE_MB] with [file_size_mb = size / (1024 *
    1024)]: the division by a power of two is exact on floats, so this is
    the integer test for sizes below 2^53. *)
Definition too_large (size : Z) : bool :=
  ConfigMore.MAX_FILE_SIZE_MB * (1024 * 1024) <? size.

(** The end of [process_uploaded_file]: an extractor that raised leaves
    the [try] ([None]); a blank text is refused. *)
Definition checked (extracted : option str) : option (str * bool) :=
  text ← extracted;
  if negb (nonempty (strip text)) then Some ([], false) else Some (text, true).

(** The body of [process_uploaded_file] under its [try]. *)
Definition process_body (file : uploaded) : option (str * bool) :=
  let file_type := lower (last_piece (split_on "."%char (file_name file))) in
  if too_large (file_size file) then Some ([], false)
  else if bool_decide (file_type = lit "pdf") then checked (_extract_from_pdf file)
  else if bool_decide (file_type ∈ [lit "docx"; lit "doc"])
       then checked (_extract_from_docx file)
  else if bool_decide (file_type = lit "txt") then checked (_extract_from_txt file)
  else Some ([], false).

(** [process_uploaded_file]: the [except] answers the empty text and
    [False]. *)
Definition process_uploaded_file (file : uploaded) : str * bool :=
  default ([], false) (process_body file).

End Extraction.

End DocumentProcessor.

(** *** A concrete reader, for running the model *)

Module ToyReaders.

Import DocumentProcessor.

(** A file held in memory: its name, its size, and the text that every
    reader finds in it, as one page or one paragraph. *)
Record memory_file := { mem_name : str; mem_size : Z; mem_text : str }.

Definition MemoryReaders : Readers :=
  {| uploaded := memory_file;
     file_name := mem_name;
     file_size := mem_size;
     pdf_pages := λ f, Some [Some (mem_text f)];
     docx_paragraphs := λ f, Some [mem_text f];
     decode_as := λ f _, Decoded (mem_text f) |}.

Definition notes_txt : memory_file :=
  {| mem_name := lit "Notes.v2.TXT"; mem_size := 2048;
     mem_text := lit "  first line" ++ [nl] ++ lit "second line  " ++ [nl] |}.

End ToyReaders.

(** *** [utils/openai_helper.py], the rest *)

Module OpenAIHelperMore.

Import OpenAIHelper.

(** [str(n)] for an integer, as an f-string prints it. *)
Definition str_of_int (n : Z) : str := lit (DecimalString.NilZero.string_of_int (Z.to_int n)).

(** The temperatures of [config.py], as the binary64 nearest to each. *)
Definition TEMPERATURE_SUMMARY : float := 0x1.3333333333333p-2%float.
Definition TEMPERATURE_EXTRACTION : float := 0x1.999999999999ap-3%float.

(** [openai.chat.completions.create(model, messages, temperature,
    max_tokens)], read up to [response.choices[0].message.content]: the
    text, or [None] when the call raises or answers without a text. *)
Class Completions := {
  create : str → list message → float → Z → option str
}.

(** [self.model = model or self.config.DEFAULT_MODEL] in [__init__] *)
Definition init_model (model : option str) : str :=
  match model with
  | Some (c :: m) => c :: m
  | _ => Config.DEFAULT_MODEL
  end.

(** [self.encoding] as tiktoken runs it. With its default arguments
    [encode] raises [ValueError] on a text that holds a special token
    (the end-of-text marker, for one) and encodes every other text;
    [encodes] tells the two apart. *)
Class Encoding := {
  tokenizer :: Tokenizer str;
  encodes : str → bool
}.

(** [count_tokens(text)] with the exception of [encode]: [None] when it
    raises. *)
Definition checked_count_tokens `{E : Encoding} (text : str) : option Z :=
  if encodes text then Some (count_tokens text) else None.

(** What loading an encoding comes to: the encoding, the [KeyError] of
    [encoding_for_model] for a model it does not know, or another
    exception (the encoding's file cannot be fetched or read). *)
Inductive loading :=
  | Loaded (E : Encoding)
  | KeyError
  | LoadError.

(** The two entry points of tiktoken that [__init__] calls. *)
Class Tiktoken := {
  encoding_for_model : str → loading;
  get_encoding : str → loading
}.

(** The [try] of [__init__] around [encoding_for_model]: only a
    [KeyError] is caught, and answered with [get_encoding("cl100k_base")],
    outside the [try]. [None] is [__init__] raising. *)
Definition init_encoding `{K : Tiktoken} (model : str) : option Encoding :=
  match encoding_for_model model with
  | Loaded E => Some E
  | KeyError =>
      match get_encoding (lit "cl100k_base") with
      | Loaded E => Some E
      | _ => None
      end
  | LoadError => None
  end.

Section Calls.
Context `{E : Encoding} `{C : Completions}.

Definition summary_prompt (text : str) (max_length : Z) : str :=
  join [nl]
    [ lit "Analyze the following document and provide a comprehensive, well-structured summary.";
      lit "            ";
      lit "The summary should:";
      lit "- Capture the main ideas, key points, and important details";
      lit "- Be approximately " ++ str_of_int max_length ++ lit " words";
      lit "- Be organized in clear paragraphs";
      lit "- Maintain the core message and context of the original";
      lit "";
      lit "Document:";
      text;
      lit "";
      lit "Summary:" ].

(** The [messages] of the three calls: a system message and the prompt. *)
Definition summary_messages (prompt : str) : list message :=
  [ {| role := lit "system";
       content := lit "You are an expert at analyzing and summarizing documents. Provide clear, concise, and comprehensive summaries." |};
    {| role := lit "user"; content := prompt |} ].

Definition insights_messages (prompt : str) : list message :=
  [ {| role := lit "system";
       content := lit "You are an expert at analyzing documents and extracting structured insights. Be precise and thorough." |};
    {| role := lit "user"; content := prompt |} ].

Definition keywords_messages (prompt : str) : list message :=
  [ {| role := lit "system";
       content := lit "You are an expert at identifying key terms and concepts in documents." |};
    {| role := lit "user"; content := prompt |} ].

(** [generate_summary(text, max_length)]; [None] is its [except]:
    [count_tokens] raised, or the call did. Past [count_tokens] the
    second [encode] is of the same text, and the truncation is
    [summary_text]. *)
Definition generate_summary (model : str) (text : str) (max_length : Z) : option str :=
  _ ← checked_count_tokens text;
  let text := summary_text model text in
  let prompt := summary_prompt text max_length in
  strip <$> create model (summary_messages prompt) TEMPERATURE_SUMMARY 1000.

Definition insights_prompt (text : str) : str :=
  join [nl]
    [ lit "Analyze the following document and extract key insights in a structured format.";
      lit "";
      lit "Document:";
      text;
      lit "";
      lit "Please provide:";
      lit "1. KEY ENTITIES: Important people, organizations, places, or concepts mentioned";
      lit "2. MAIN THEMES: Core topics, ideas, or subjects discussed";
      lit "3. ACTION ITEMS: Any tasks, recommendations, or next steps mentioned";
      lit "";
      lit "Format your response exactly as follows:";
      lit "KEY ENTITIES:";
      lit "- Entity 1";
      lit "- Entity 2";
      lit "...";
      lit "";
      lit "MAIN THEMES:";
      lit "- Theme 1";
      lit "- Theme 2";
      lit "...";
      lit "";
      lit "ACTION ITEMS:";
      lit "- Action 1";
      lit "- Action 2";
      lit "...";
      lit "";
      lit "(If a category has no items, write " ++ [dq] ++ lit "None identified" ++ [dq]
        ++ lit ")" ].

(** [extract_insights(text)]; [None] is its [except]: [count_tokens]
    raised, or the call, or the parser. *)
Definition extract_insights (model : str) (text : str)
  : option (gmap string (list str)) :=
  _ ← checked_count_tokens text;
  let text := summary_text model text in
  let prompt := insights_prompt text in
  response ← create model (insights_messages prompt) TEMPERATURE_EXTRACTION 1000;
  _parse_insights (strip response).

Definition keywords_prompt (text : str) (max_keywords : Z) : str :=
  join [nl]
    [ lit "Extract the " ++ str_of_int max_keywords
        ++ lit " most important keywords or key phrases from this document.";
      lit "            ";
      lit "Document:";
      text;
      lit "";
      lit "Provide only the keywords/phrases, one per line, without numbers or bullets:" ].

(** [[line.strip() for line in content.split('\n') if line.strip()]] *)
Definition keyword_lines (content : str) : list str :=
  DocumentProcessor.nonblank_pieces (split_on nl content).

(** [generate_keywords(text, max_keywords)]; [None] is its [except]:
    [count_tokens] raised, or the call did. [keywords[:max_keywords]] is
    a Python slice: a negative bound counts from the end. *)
Definition generate_keywords (model : str) (text : str) (max_keywords : Z)
  : option (list str) :=
  _ ← checked_count_tokens text;
  let text := keywords_text model text in
  let prompt := keywords_prompt text max_keywords in
  response ← create model (keywords_messages prompt) 0x1.999999999999ap-3%float 200;
  Some (slice (keyword_lines (strip response)) 0 max_keywords).

End Calls.

End OpenAIHelperMore.

(** *** [app.py]: the session and the two actions on it *)

Module App.

Import Embeddings OpenAIHelper OpenAIHelperMore DocumentProcessor.

Section Session.
Context `{P : Provider} `{C : Completions} `{G : Generator} `{K : Tiktoken}.

(** The keys of [st.session_state] that the two actions read or write. *)
Record Session := {
  document_text : option str;
  document_stats : option text_stats;
  summary : option str;
  insights : option (gmap string (list str));
  keywords : option (list str);
  embedding_store : option Store;
  chat_history : list message;
  processed : bool;
  selected_model : str
}.

(** [initialize_session_state], with the model picked in the sidebar. *)
Definition initial_session (model : str) : Session :=
  {| document_text := None; document_stats := None; summary := None;
     insights := None; keywords := None; embedding_store := None;
     chat_history := []; processed := false; selected_model := model |}.

(** [process_document(text)]. The text and its statistics are stored
    first. [OpenAIHelper(...)] runs under the [try]: when its
    [__init__] raises, the [except] sets [processed] to [False] and
    nothing else is written. The three helper calls and
    [create_embeddings] catch what they raise, and the display calls are
    taken to succeed. [None] is the chunker out of fuel. *)
Definition process_document (fuel : nat) (w : World) (s : Session) (text : str)
  : option (World * Session) :=
  let stats := get_text_stats text in
  let model := init_model (Some (selected_model s)) in
  match init_encoding model with
  | None =>
      Some (w,
            {| document_text := Some text;
               document_stats := Some stats;
               summary := summary s;
               insights := insights s;
               keywords := keywords s;
               embedding_store := embedding_store s;
               chat_history := chat_history s;
               processed := false;
               selected_model := selected_model s |})
  | Some E =>
      let new_summary := generate_summary model text 500 in
      let new_insights := extract_insights model text in
      let new_keywords := generate_keywords model text 10 in
      chunks ← Chunker.chunk_text fuel text None None;
      let '(w', store, ok) := create_embeddings w init chunks in
      Some (w',
            {| document_text := Some text;
               document_stats := Some stats;
               summary := new_summary;
               insights := new_insights;
               keywords := new_keywords;
               embedding_store := if ok then Some store else embedding_store s;
               chat_history := [];
               processed := true;
               selected_model := selected_model s |})
  end.

Definition with_history (s : Session) (h : list message) : Session :=
  {| document_text := document_text s; document_stats := document_stats s;
     summary := summary s; insights := insights s; keywords := keywords s;
     embedding_store := embedding_store s; chat_history := h;
     processed := processed s; selected_model := selected_model s |}.


(** The Clear Chat History button. *)
Definition clear_chat (s : Session) : Session := with_history s [].

End Session.


End App.

(** *** Vocabulary for the further properties of the chunker *)

Module ChunkSpec.

(** [c] is a contiguous part of [text]. *)
Definition part_of (text c : str) : Prop := ∃ before after, text = before ++ c ++ after.

(** Every character is whitespace ([not s.strip()]). *)
Definition blank (s : str) : Prop := Forall (λ c, isspace c = true) s.

(** What holds of a chunk that the window loop yields. *)
Definition well_formed_chunk (text : str) (chunk_size : Z) (c : str) : Prop :=
  c ≠ [] ∧ strip c = c ∧ len c ≤ chunk_size ∧ part_of text c.

End ChunkSpec.

(** *** Concrete models, for running the helper *)

Module ToyModels.

Import OpenAIHelper OpenAIHelperMore.

(** One token per character. *)
Definition CharTokenizer : Tokenizer str :=
  {| token := ascii; encode := id; decode := id |}.

(** The same as an encoding that refuses a text holding the end-of-text
    marker. *)
Definition CharEncoding : Encoding :=
  {| tokenizer := CharTokenizer;
     encodes := λ text, rfind text (lit "<|endoftext|>") <? 0 |}.

(** A loader that cannot fetch any encoding. *)
Definition Offline : Tiktoken :=
  {| encoding_for_model := λ _, LoadError; get_encoding := λ _, LoadError |}.

(** A loader that knows one model and falls back for the others. *)
Definition OneModel : Tiktoken :=
  {| encoding_for_model :=
       λ model, if bool_decide (model = lit "gpt-4") then Loaded CharEncoding else KeyError;
     get_encoding := λ _, Loaded CharEncoding |}.

(** A model that lists four keywords, two of them behind blank lines. *)
Definition listing : Completions :=
  {| create := λ _ _ _ _,
       Some (lit "  retrieval " ++ [nl; nl] ++ lit "chunking" ++ [nl] ++ lit "  " ++ [nl]
             ++ lit "embeddings" ++ [nl] ++ lit "faiss" ++ [nl]) |}.

End ToyModels.

(** *** Vocabulary and models for the session's properties *)

Module AppSpec.

Import Embeddings OpenAIHelper OpenAIHelperMore App.

(** The store kept by the session, when there is one, is ready and its
    index has a row per chunk. *)
Definition store_built `{N : Numeric} (s : Session) : Prop :=
  ∀ store, embedding_store s = Some store →
    is_ready store = true ∧
    ∃ ix, index store = Some ix ∧ length (rows ix) = length (chunks store).


(** A session that has processed a document of two chunks and holds one
    exchange. *)
Definition toy_session : @Session Toy.ZNumeric :=
  {| document_text := Some (lit "alpha beta beta");
     document_stats := None; summary := None; insights := None; keywords := None;
     embedding_store := Some Toy.built_store;
     chat_history := [ {| role := lit "user"; content := lit "What is it?" |};
                       {| role := lit "assistant"; content := lit "A system." |} ];
     processed := true;
     selected_model := lit "gpt-4" |}.

End AppSpec.

(** * Properties *)

(** ** Facts about the built-ins *)

Module PyFacts.

Lemma len_nonneg {A} (s : list A) : 0 ≤ len s.
Proof. unfold len. lia. Qed.

Lemma len_app {A} (s t : list A) : len (s ++ t) = len s + len t.
Proof. unfold len. rewrite length_app. lia. Qed.

(** A slice with bounds inside the list is a [firstn] of a [skipn]. *)
Lemma slice_inside {A} (s : list A) (a b : Z) :
  0 ≤ a → a ≤ b → b ≤ len s →
  slice s a b = firstn (Z.to_nat (b - a)) (skipn (Z.to_nat a) s).
Proof.
  intros Ha Hab Hb. unfold slice, clamp_index.
  destruct (Z.ltb_spec a 0); [lia|].
  destruct (Z.ltb_spec b 0); [lia|].
  rewrite !Z.min_l by lia. reflexivity.
Qed.

(** A slice whose upper bound passes the end stops at the end. *)
Lemma slice_to_end {A} (s : list A) (a b : Z) :
  0 ≤ a → len s ≤ b → slice s a b = skipn (Z.to_nat a) s.
Proof.
  intros Ha Hb. unfold slice, clamp_index.
  destruct (Z.ltb_spec a 0); [lia|].
  destruct (Z.ltb_spec b 0); [pose proof (len_nonneg s); lia|].
  rewrite (Z.min_r b) by lia.
  destruct (Z.le_gt_cases a (len s)) as [Hle|Hgt].
  - rewrite Z.min_l by lia.
    apply firstn_all2. rewrite length_skipn. unfold len in *. lia.
  - rewrite Z.min_r by lia. unfold len in *.
    rewrite !drop_ge by lia. by rewrite firstn_nil.
Qed.

Lemma slice_length_inside {A} (s : list A) (a b : Z) :
  0 ≤ a → a ≤ b → b ≤ len s → len (slice s a b) = b - a.
Proof.
  intros Ha Hab Hb. rewrite slice_inside by done.
  unfold len in *. rewrite length_firstn, length_skipn. lia.
Qed.

(** Position [i] of the list shows in every slice that spans it. *)
Lemma slice_lookup {A} (s : list A) (a b : Z) (i : nat) (x : A) :
  0 ≤ a → a ≤ Z.of_nat i → Z.of_nat i < b →
  s !! i = Some x → x ∈ slice s a b.
Proof.
  intros Ha Hai Hib Hx.
  assert (Hlt : (i < length s)%nat) by (eapply lookup_lt_Some; eauto).
  destruct (Z.le_gt_cases b (len s)) as [Hb|Hb].
  - rewrite slice_inside by lia.
    apply list_elem_of_lookup. exists (i - Z.to_nat a)%nat.
    rewrite lookup_take_lt by lia. rewrite lookup_drop.
    replace (Z.to_nat a + (i - Z.to_nat a))%nat with i by lia. done.
  - rewrite slice_to_end by lia.
    apply list_elem_of_lookup. exists (i - Z.to_nat a)%nat.
    rewrite lookup_drop.
    replace (Z.to_nat a + (i - Z.to_nat a))%nat with i by lia. done.
Qed.

(** *** Stripping *)

Lemma lstrip_nonempty (s : str) (c : ascii) :
  c ∈ s → isspace c = false → lstrip s ≠ [].
Proof.
  induction s as [|x s IH]; intros Hin Hc; [by apply elem_of_nil in Hin|].
  simpl. destruct (isspace x) eqn:Hx; [|done].
  apply IH; [|done]. apply elem_of_cons in Hin as [->|]; [congruence|done].
Qed.

Lemma lstrip_suffix (s : str) : ∃ pre, s = pre ++ lstrip s ∧ Forall (λ c, isspace c = true) pre.
Proof.
  induction s as [|x s [pre [IH1 IH2]]]; [by exists []|].
  simpl. destruct (isspace x) eqn:Hx.
  - exists (x :: pre). split; [simpl; congruence|by constructor].
  - by exists [].
Qed.

Lemma lstrip_keeps (s : str) (c : ascii) :
  c ∈ s → isspace c = false → c ∈ lstrip s.
Proof.
  intros Hin Hc. destruct (lstrip_suffix s) as [pre [Heq Hpre]].
  rewrite Heq in Hin. apply elem_of_app in Hin as [Hin|Hin]; [|done].
  rewrite Forall_forall in Hpre. apply Hpre in Hin. congruence.
Qed.

Lemma elem_of_rev {A} (l : list A) (x : A) : x ∈ rev l ↔ x ∈ l.
Proof. rewrite !list_elem_of_In. symmetry. apply in_rev. Qed.

Lemma rstrip_keeps (s : str) (c : ascii) :
  c ∈ s → isspace c = false → c ∈ rstrip s.
Proof.
  intros Hin Hc. unfold rstrip. apply elem_of_rev.
  apply lstrip_keeps; [|done]. by apply elem_of_rev.
Qed.

(** A string with a character that is not whitespace strips to a
    string that still holds it. *)
Lemma strip_keeps (s : str) (c : ascii) :
  c ∈ s → isspace c = false → c ∈ strip s.
Proof.
  intros Hin Hc. unfold strip. apply rstrip_keeps; [|done]. by apply lstrip_keeps.
Qed.

Lemma strip_nonempty (s : str) (c : ascii) :
  c ∈ s → isspace c = false → strip s ≠ [].
Proof.
  intros Hin Hc Hnil. pose proof (strip_keeps s c Hin Hc) as H.
  rewrite Hnil in H. by apply elem_of_nil in H.
Qed.

(** What is left of a strip has no whitespace at either end. *)
Lemma lstrip_head (s : str) (c : ascii) :
  head (lstrip s) = Some c → isspace c = false.
Proof.
  induction s as [|x s IH]; simpl; [done|].
  destruct (isspace x) eqn:Hx; [done|]. simpl. congruence.
Qed.

(** Stripping a text that ends with a character that is not whitespace
    and one that is: the result ends with the former. *)
Lemma lstrip_app_keep (s t : str) (c : ascii) :
  isspace c = false → ∃ s', lstrip (s ++ c :: t) = s' ++ c :: t.
Proof.
  intros Hc. induction s as [|x s IH]; simpl.
  - exists []. by rewrite Hc.
  - destruct (isspace x); [done|]. by exists (x :: s).
Qed.

Lemma rstrip_snoc_space (s : str) (c w : ascii) :
  isspace c = false → isspace w = true → rstrip (s ++ [c; w]) = s ++ [c].
Proof.
  intros Hc Hw. unfold rstrip.
  rewrite rev_app_distr. simpl. rewrite Hw, Hc.
  simpl. by rewrite rev_involutive.
Qed.

Lemma strip_ends_with (s : str) (c w : ascii) :
  isspace c = false → isspace w = true → last (strip (s ++ [c; w])) = Some c.
Proof.
  intros Hc Hw. unfold strip.
  destruct (lstrip_app_keep s [w] c Hc) as [s' ->].
  rewrite rstrip_snoc_space by done. apply last_snoc.
Qed.

(** A slice is a prefix of every slice from the same start that ends later. *)
Lemma slice_prefix {A} (s : list A) (a b c : Z) :
  0 ≤ a → a ≤ b → b ≤ c → c ≤ len s →
  slice s a b = firstn (Z.to_nat (b - a)) (slice s a c).
Proof.
  intros Ha Hab Hbc Hc. rewrite !slice_inside by lia.
  rewrite take_take. f_equal. lia.
Qed.

(** *** Occurrences *)

Lemma startswith_spec (s p : str) :
  startswith s p = true ↔ ∃ t, s = p ++ t.
Proof.
  revert s. induction p as [|a p IH]; intros s.
  - destruct s; simpl; (split; [by eexists|done]).
  - destruct s as [|c s]; simpl.
    + split; [done|intros [t Ht]; discriminate].
    + destruct (Ascii.eqb_spec a c) as [->|Hne].
      * rewrite IH. split; intros [t Ht]; exists t; [by subst|].
        by simplify_eq/=.
      * split; [done|]. intros [t Ht]. simplify_eq.
Qed.

Lemma startswith_length (s p : str) :
  startswith s p = true → (length p ≤ length s)%nat.
Proof.
  rewrite startswith_spec. intros [t ->]. rewrite length_app. lia.
Qed.

Lemma rfind_nat_nil (p : str) :
  rfind_nat [] p = if startswith [] p then Some 0%nat else None.
Proof. reflexivity. Qed.

Lemma rfind_nat_cons (c : ascii) (s p : str) :
  rfind_nat (c :: s) p =
  match rfind_nat s p with
  | Some i => Some (S i)
  | None => if startswith (c :: s) p then Some 0%nat else None
  end.
Proof. simpl. by destruct (rfind_nat s p). Qed.

Lemma rfind_nat_None (s p : str) :
  rfind_nat s p = None → ∀ j, startswith (skipn j s) p = false.
Proof.
  induction s as [|c s IH].
  - rewrite rfind_nat_nil. destruct (startswith [] p) eqn:Hp; [done|].
    intros _ j. by rewrite skipn_nil.
  - rewrite rfind_nat_cons. destruct (rfind_nat s p) as [k|] eqn:Hk; [done|].
    destruct (startswith (c :: s) p) eqn:Hp; [done|].
    intros _ [|j]; [done|]. rewrite skipn_cons. by apply IH.
Qed.

(** [rfind_nat] answers an occurrence, and the last one. *)
Lemma rfind_nat_Some (s p : str) (i : nat) :
  p ≠ [] →
  rfind_nat s p = Some i →
  startswith (skipn i s) p = true ∧
  ∀ j, (i < j)%nat → startswith (skipn j s) p = false.
Proof.
  intros Hne. revert i. induction s as [|c s IH]; intros i.
  - rewrite rfind_nat_nil. by destruct p.
  - rewrite rfind_nat_cons. destruct (rfind_nat s p) as [k|] eqn:Hk.
    + intros [= <-]. destruct (IH k eq_refl) as [H1 H2]. split; [done|].
      intros j Hj. destruct j as [|j]; [lia|]. rewrite skipn_cons.
      apply H2. lia.
    + destruct (startswith (c :: s) p) eqn:Hp; [|done].
      intros [= <-]. split; [done|].
      intros j Hj. destruct j as [|j]; [lia|]. rewrite skipn_cons.
      by apply rfind_nat_None.
Qed.

(** An occurrence of a non-empty [p] at [i] ends inside [s]. *)
Lemma occurrence_fits (s p : str) (i : nat) :
  p ≠ [] → startswith (skipn i s) p = true → (i + length p ≤ length s)%nat.
Proof.
  intros Hp H. apply startswith_length in H. rewrite length_skipn in H.
  destruct p; [done|]. simpl in *. lia.
Qed.

End PyFacts.

Module ChunkerFacts.

Import PyFacts Chunker ChunkerSpec.

Lemma puncts_shape (p : str) : p ∈ puncts → p ≠ [] ∧ len p = 2.
Proof.
  unfold puncts. rewrite !elem_of_cons, elem_of_nil.
  intros H. repeat destruct H as [->|H]; try done.
Qed.

(** [rfind] is -1 or the index of the last occurrence. *)
Lemma rfind_found (w p : str) :
  p ≠ [] → 0 ≤ rfind w p → last_occurrence w p (rfind w p).
Proof.
  intros Hp. unfold rfind. destruct (rfind_nat w p) as [i|] eqn:Hi; [|lia].
  intros _. destruct (rfind_nat_Some w p i Hp Hi) as [H1 H2].
  split.
  - split; [lia|]. by rewrite Nat2Z.id.
  - intros j [Hj0 Hj]. destruct (Z.le_gt_cases j (Z.of_nat i)) as [|Hgt]; [done|].
    rewrite H2 in Hj by lia. done.
Qed.

Lemma rfind_absent (w p : str) (j : Z) :
  rfind w p < 0 → ¬ occurs_at w p j.
Proof.
  unfold rfind. destruct (rfind_nat w p) as [i|] eqn:Hi; [lia|].
  intros _ [_ Hj]. by rewrite (rfind_nat_None w p Hi) in Hj.
Qed.

Lemma rfind_lower (w p : str) : -1 ≤ rfind w p.
Proof. unfold rfind. destruct (rfind_nat w p); lia. Qed.

(** The last occurrence is the value of [rfind]. *)
Lemma last_occurrence_rfind (w p : str) (i : Z) :
  p ≠ [] → last_occurrence w p i → rfind w p = i.
Proof.
  intros Hp [Hocc Hmax].
  destruct (Z.lt_ge_cases (rfind w p) 0) as [Hneg|Hpos].
  - by destruct (rfind_absent w p i Hneg).
  - destruct (rfind_found w p Hp ltac:(lia)) as [Hocc' Hmax'].
    apply Z.le_antisymm; [by apply Hmax|by apply Hmax'].
Qed.

Lemma occurs_at_fits (w p : str) (i : Z) :
  p ≠ [] → occurs_at w p i → i + len p ≤ len w.
Proof.
  intros Hp [Hi H]. apply occurrence_fits in H; [|done]. unfold len. lia.
Qed.

(** What [find_cut] answers comes from a marker whose last occurrence
    lies past the half. *)
Lemma find_cut_Some (w : str) (cs : Z) (ps : list str) (off : Z) :
  find_cut w cs ps = Some off →
  ∃ p, p ∈ ps ∧ off = rfind w p + len p ∧ cs < 2 * rfind w p.
Proof.
  induction ps as [|p ps IH]; simpl; [done|].
  unfold past_half. destruct (Z.ltb_spec cs (2 * rfind w p)) as [Hlt|Hge].
  - intros [= <-]. exists p. split; [left|done].
  - intros H. destruct (IH H) as [q [Hq Hoff]]. exists q. split; [by right|done].
Qed.

Lemma find_cut_None (w : str) (cs : Z) (ps : list str) :
  find_cut w cs ps = None ↔ ∀ p, p ∈ ps → 2 * rfind w p ≤ cs.
Proof.
  induction ps as [|p ps IH]; simpl.
  - split; [|done]. intros _ p Hp. by apply elem_of_nil in Hp.
  - unfold past_half. destruct (Z.ltb_spec cs (2 * rfind w p)) as [Hlt|Hge].
    + split; [done|]. intros H. specialize (H p ltac:(left)). lia.
    + rewrite IH. split.
      * intros H q Hq. apply elem_of_cons in Hq as [->|Hq]; [done|by apply H].
      * intros H q Hq. apply H. by right.
Qed.

(** The window is cut inside its raw extent, and past its half when a
    marker decides. *)
Lemma window_end_bounds (text : str) (cs start : Z) :
  0 ≤ start → 0 < cs →
  window_end text cs start = start + cs ∨
  (start + cs < len text ∧
   start + cs / 2 + 3 ≤ window_end text cs start ≤ start + cs).
Proof.
  intros Hs Hcs. unfold window_end.
  destruct (Z.ltb_spec (start + cs) (len text)) as [Hin|Hout]; [|by left].
  destruct (find_cut _ cs puncts) as [off|] eqn:Hcut; [|by left].
  right. split; [done|].
  apply find_cut_Some in Hcut as [p [Hp [-> Hhalf]]].
  destruct (puncts_shape p Hp) as [Hne Hlen].
  assert (Hfit : rfind (slice text start (start + cs)) p + len p
                 ≤ len (slice text start (start + cs))).
  { apply occurs_at_fits; [done|]. apply rfind_found; [done|lia]. }
  rewrite slice_length_inside in Hfit by lia.
  rewrite Hlen in *. Z.div_mod_to_equations. lia.
Qed.

(** Each iteration moves [start] forward. *)
Lemma next_start_advances (text : str) (cs o start : Z) :
  0 ≤ start → 0 < o < cs → o ≤ cs / 2 + 2 →
  start < next_start text cs o start.
Proof.
  intros Hs Ho Ho2. unfold next_start.
  destruct (window_end_bounds text cs start) as [->|[_ H]];
    [lia..|Z.div_mod_to_equations; lia].
Qed.

Lemma chunk_loop_unfold (fuel : nat) (text : str) (cs o : Z) (st : Z * list str) :
  chunk_loop (S fuel) text cs o st =
  if st.1 <? len text
  then chunk_loop fuel text cs o (loop_body text cs o st)
  else Some st.2.
Proof. reflexivity. Qed.

Lemma chunk_loop_done (fuel : nat) (text : str) (cs o : Z) (st : Z * list str) :
  len text ≤ st.1 → chunk_loop fuel text cs o st = Some st.2.
Proof.
  intros H. destruct fuel; simpl;
    destruct (Z.ltb_spec st.1 (len text)); (done || lia).
Qed.

Lemma append_chunk_length (chunks : list str) (chunk : str) :
  (length chunks ≤ length (append_chunk chunks chunk))%nat.
Proof. destruct chunk; simpl; [done|]. rewrite length_app. lia. Qed.

Lemma append_chunk_nonempty (chunks : list str) (chunk : str) :
  chunk ≠ [] → length (append_chunk chunks chunk) = S (length chunks).
Proof. destruct chunk; [done|]. intros _. simpl. rewrite length_app. simpl. lia. Qed.

Lemma last_lookup_len (text : str) (c : ascii) :
  last text = Some c → text !! (length text - 1)%nat = Some c.
Proof. intros H. rewrite <- H. by rewrite last_lookup, Nat.sub_1_r. Qed.

(** A window that reaches the end of a text whose last character is not
    whitespace yields a chunk. *)
Lemma final_window_chunk (text : str) (cs start : Z) :
  ends_nonblank text → 0 ≤ start → start < len text →
  len text ≤ window_end text cs start →
  window_chunk text cs start ≠ [].
Proof.
  unfold ends_nonblank. intros Hlast Hs Hlt Hend.
  destruct (last text) as [c|] eqn:Hc; [|done]. simpl in Hlast.
  apply last_lookup_len in Hc.
  apply (strip_nonempty _ c); [|congruence].
  eapply slice_lookup; [done| | |exact Hc]; unfold len in *; lia.
Qed.

(** The loop, given enough fuel, ends; it never loses a chunk, and from
    a start inside the text it adds at least one. *)
Lemma chunk_loop_terminates (text : str) (cs o : Z) :
  0 < o < cs → o ≤ cs / 2 + 2 → ends_nonblank text →
  ∀ (n : nat) (start : Z) (acc : list str),
    0 ≤ start → len text - start ≤ Z.of_nat n →
    ∃ chunks,
      (∀ fuel, (n ≤ fuel)%nat → chunk_loop fuel text cs o (start, acc) = Some chunks) ∧
      (length acc ≤ length chunks)%nat ∧
      (start < len text → (length acc < length chunks)%nat) ∧
      (len text ≤ start → chunks = acc).
Proof.
  intros Ho Ho2 Hlast. induction n as [|n IH]; intros start acc Hs Hn.
  - exists acc. split; [|split; [done|split; [lia|done]]].
    intros fuel _. by apply chunk_loop_done; simpl; lia.
  - destruct (Z.lt_ge_cases start (len text)) as [Hlt|Hge].
    2:{ exists acc. split; [|split; [done|split; [lia|done]]].
        intros fuel _. by apply chunk_loop_done; simpl; lia. }
    pose proof (next_start_advances text cs o start Hs Ho Ho2) as Hadv.
    set (start' := next_start text cs o start) in *.
    set (acc' := append_chunk acc (window_chunk text cs start)).
    destruct (IH start' acc' ltac:(lia) ltac:(lia)) as [chunks [Hrun [Hle [Hstrict Hsame]]]].
    pose proof (append_chunk_length acc (window_chunk text cs start)) as Hacc.
    fold acc' in Hacc.
    exists chunks. split; [|split; [lia|split; [|lia]]].
    + intros fuel Hfuel. destruct fuel as [|fuel]; [lia|].
      rewrite chunk_loop_unfold. simpl.
      destruct (Z.ltb_spec start (len text)); [|lia].
      unfold loop_body. simpl. apply Hrun. lia.
    + intros _. destruct (Z.lt_ge_cases start' (len text)) as [Hlt'|Hge'].
      * specialize (Hstrict Hlt'). lia.
      * rewrite (Hsame Hge'). unfold acc'.
        rewrite append_chunk_nonempty; [lia|].
        apply final_window_chunk; try done.
        unfold start', next_start in Hge'. lia.
Qed.

(** *** Short texts *)

Lemma chunk_text_short (fuel : nat) (text : str) (chunk_size overlap : option Z) :
  len text ≤ or_default chunk_size Config.CHUNK_SIZE →
  chunk_text fuel text chunk_size overlap = Some [text].
Proof.
  intros H. unfold chunk_text.
  by destruct (Z.leb_spec (len text) (or_default chunk_size Config.CHUNK_SIZE)); [|lia].
Qed.

(** C4, at the failing input: a short text with whitespace around it comes
    back as it is, where the loop would have stripped it. *)
Theorem chunk_text_short_is_not_trimmed :
  let text := lit " a " in
  len text ≤ Config.CHUNK_SIZE ∧
  (∀ fuel, chunk_text fuel text None None = Some [text]) ∧
  strip text = lit "a" ∧ text ≠ strip text.
Proof.
  split; [by vm_compute|]. split; [|by vm_compute].
  intros fuel. by apply chunk_text_short.
Qed.

(** *** Progress and termination *)

(** The stall: with [chunk_size = 10] and [overlap = 9] a cut after the
    marker at index 6 sends [start] from 0 to -1, the empty window at -1
    sends it back to 0, and the loop never ends. *)
Lemma stalling_loop (fuel : nat) (acc : list str) :
  chunk_loop fuel stalling_text 10 9 (0, acc) = None ∧
  chunk_loop fuel stalling_text 10 9 (-1, acc) = None.
Proof.
  revert acc. induction fuel as [|fuel IH]; intros acc; [done|].
  rewrite !chunk_loop_unfold. split.
  - change (chunk_loop fuel stalling_text 10 9 (-1, acc ++ [lit "aaaaaa."]) = None).
    apply IH.
  - change (chunk_loop fuel stalling_text 10 9 (0, acc) = None).
    apply IH.
Qed.

Lemma chunk_text_stalls (fuel : nat) :
  chunk_text fuel stalling_text (Some 10) (Some 9) = None.
Proof. apply (stalling_loop fuel []). Qed.

(** A text of whitespace only yields no chunk at all. *)
Lemma chunk_text_blank : chunk_text 2 blank_text None None = Some [].
Proof. by vm_compute. Qed.

(** C2, as stated, fails twice: the loop can stall for an overlap below
    the chunk size, and a text longer than the chunk size can yield fewer
    than two chunks. *)
Lemma chunk_progress_counterexample :
  (10 < len stalling_text ∧ 0 ≤ 9 < 10 ∧
   ∀ fuel, chunk_text fuel stalling_text (Some 10) (Some 9) = None) ∧
  (1000 < len blank_text ∧ 0 ≤ 200 < 1000 ∧
   chunk_text 2 blank_text (Some 1000) (Some 200) = Some []).
Proof.
  split; (split; [by vm_compute|split; [lia|]]).
  - apply chunk_text_stalls.
  - by vm_compute.
Qed.

(** C2, amended: for a text longer than the chunk size that neither
    starts nor ends with whitespace, and an effective overlap [o] with
    [0 < o < chunk_size] and [o <= chunk_size / 2 + 2], every iteration of
    the window loop moves [start] forward, [chunk_text] terminates, and it
    yields at least 2 chunks. *)
Theorem chunk_text_terminates_with_two_chunks
    (text : str) (chunk_size overlap : option Z) :
  let cs := or_default chunk_size Config.CHUNK_SIZE in
  let o := or_default overlap Config.CHUNK_OVERLAP in
  cs < len text → 0 < o < cs → o ≤ cs / 2 + 2 →
  starts_nonblank text → ends_nonblank text →
  (∀ start, 0 ≤ start → start < next_start text cs o start) ∧
  ∃ fuel chunks,
    (∀ fuel', (fuel ≤ fuel')%nat →
       chunk_text fuel' text chunk_size overlap = Some chunks) ∧
    (2 ≤ length chunks)%nat.
Proof.
  intros cs o Hlen Ho Ho2 Hhead Hlast.
  split; [intros start Hs; by apply next_start_advances|].
  (* the first window *)
  pose proof (next_start_advances text cs o 0 ltac:(lia) Ho Ho2) as Hadv.
  assert (Hfirst : window_chunk text cs 0 ≠ []).
  { unfold starts_nonblank in Hhead.
    destruct text as [|c text]; [done|]. simpl in Hhead.
    apply (strip_nonempty _ c); [|congruence].
    eapply (slice_lookup _ 0 _ 0%nat); [lia|lia| |done].
    unfold next_start in Hadv. lia. }
  assert (Hin : next_start text cs o 0 < len text).
  { unfold next_start.
    destruct (window_end_bounds text cs 0 ltac:(lia) ltac:(lia)) as [->|[_ H]]; lia. }
  (* the rest of the loop *)
  set (start1 := next_start text cs o 0) in *.
  set (acc1 := append_chunk [] (window_chunk text cs 0)).
  destruct (chunk_loop_terminates text cs o Ho Ho2 Hlast
              (Z.to_nat (len text - start1)) start1 acc1 ltac:(lia) ltac:(lia))
    as [chunks [Hrun [_ [Hstrict _]]]].
  exists (S (Z.to_nat (len text - start1))), chunks. split.
  - intros fuel' Hfuel. unfold chunk_text. fold cs o.
    destruct (Z.leb_spec (len text) cs); [lia|].
    destruct fuel' as [|fuel']; [lia|].
    rewrite chunk_loop_unfold. simpl.
    destruct (Z.ltb_spec 0 (len text)); [|lia].
    apply Hrun. lia.
  - specialize (Hstrict Hin). unfold acc1 in Hstrict.
    rewrite append_chunk_nonempty in Hstrict by done. simpl in Hstrict. lia.
Qed.

Lemma chunk_text_terminates_with_two_chunks_witness :
  let text := lit "aaaaaa. aaaaaaaa" in
  (∀ start, 0 ≤ start → start < next_start text 10 3 start) ∧
  ∃ fuel chunks,
    (∀ fuel', (fuel ≤ fuel')%nat →
       chunk_text fuel' text (Some 10) (Some 3) = Some chunks) ∧
    (2 ≤ length chunks)%nat.
Proof.
  apply (chunk_text_terminates_with_two_chunks
           (lit "aaaaaa. aaaaaaaa") (Some 10) (Some 3)).
  - reflexivity.
  - split; reflexivity.
  - vm_compute. discriminate.
  - reflexivity.
  - reflexivity.
Defined.

(** *** The sentence-boundary cut *)

(** [find_cut] stops at the first marker, in list order, whose last
    occurrence lies past the half. *)
Lemma find_cut_first (w : str) (cs : Z) (before after : list str) (p : str) :
  (∀ q, q ∈ before → 2 * rfind w q ≤ cs) →
  cs < 2 * rfind w p →
  find_cut w cs (before ++ p :: after) = Some (rfind w p + len p).
Proof.
  intros Hbefore Hp. induction before as [|q before IH]; simpl.
  - unfold past_half. by destruct (Z.ltb_spec cs (2 * rfind w p)); [|lia].
  - unfold past_half. specialize (Hbefore q ltac:(left)) as Hq.
    destruct (Z.ltb_spec cs (2 * rfind w q)); [lia|].
    apply IH. intros r Hr. apply Hbefore. by right.
Qed.

(** C3 fails as stated, twice: a later marker of another
    kind does not move the cut ([". "] at 7 wins over ["! "] at 10), and a
    marker exactly at the half does not count. *)
Lemma sentence_cut_counterexample :
  (let text := lit "aaaaaaa. b! cccc" in
   0 + 12 < len text ∧
   window_end text 12 0 = 9 ∧ spec_window_end text 12 0 = 12 ∧
   window_chunk text 12 0 = lit "aaaaaaa." ∧
   strip (slice text 0 (spec_window_end text 12 0)) = lit "aaaaaaa. b!") ∧
  (let text := lit "abc. xyz" in
   0 + 6 < len text ∧
   window_end text 6 0 = 6 ∧ spec_window_end text 6 0 = 5 ∧
   window_chunk text 6 0 = lit "abc. x" ∧
   strip (slice text 0 (spec_window_end text 6 0)) = lit "abc.").
Proof. by vm_compute. Qed.

(** Every marker is a punctuation character followed by whitespace. *)
Lemma puncts_form (p : str) :
  p ∈ puncts →
  ∃ c w, p = [c; w] ∧ isspace c = false ∧ isspace w = true.
Proof.
  unfold puncts. rewrite !elem_of_cons, elem_of_nil.
  intros H. repeat destruct H as [->|H]; try done; by do 2 eexists.
Qed.

(** The text up to just after an occurrence of a marker strips to a chunk
    that ends with the marker's punctuation character. *)
Lemma chunk_ends_with_punctuation (text : str) (cs start i : Z) (p : str) :
  0 ≤ start → 0 ≤ cs → start + cs ≤ len text → p ∈ puncts →
  occurs_at (slice text start (start + cs)) p i →
  last (strip (slice text start (start + i + 2))) = head p.
Proof.
  intros Hs Hcs Hin Hp Hocc.
  destruct (puncts_shape p Hp) as [Hne Hlen].
  pose proof (occurs_at_fits _ p i Hne Hocc) as Hfit.
  destruct Hocc as [Hi Hocc].
  rewrite slice_length_inside in Hfit by lia.
  rewrite (slice_prefix text start (start + i + 2) (start + cs)) by lia.
  set (w := slice text start (start + cs)) in *.
  apply startswith_spec in Hocc as [t Ht].
  replace (Z.to_nat (start + i + 2 - start)) with (Z.to_nat i + 2)%nat by lia.
  rewrite <- take_take_drop, Ht.
  destruct (puncts_form p Hp) as (c & sp & -> & Hc & Hsp).
  simpl. by apply strip_ends_with.
Qed.

(** A marker whose last occurrence, if it has one, lies before the half
    is not past the half for [rfind]. *)
Lemma rfind_before_half (w p : str) (cs : Z) :
  p ≠ [] → 0 < cs →
  (∀ j, last_occurrence w p j → 2 * j < cs) → 2 * rfind w p ≤ cs.
Proof.
  intros Hp Hcs H. destruct (Z.lt_ge_cases (rfind w p) 0) as [|Hpos]; [lia|].
  specialize (H (rfind w p) (rfind_found w p Hp Hpos)). lia.
Qed.

(** C3, amended: take a window whose raw end lies strictly inside the
    text and in which no marker has its last occurrence exactly on the
    half of [chunk_size]. The markers are tried in the order ['. ', '.\n',
    '! ', '!\n', '? ', '?\n']; the first of them whose last occurrence in
    the window lies at or after the half of [chunk_size] decides: the chunk
    is the stripped text up to just after that occurrence, and it ends
    with the marker's punctuation character. When every marker's last
    occurrence lies before the half, the chunk is the stripped text up to
    [start + chunk_size]. *)
Theorem window_cut_by_first_marker_from_half (text : str) (chunk_size start : Z) :
  0 ≤ start → 0 < chunk_size → start + chunk_size < len text →
  let w := slice text start (start + chunk_size) in
  no_marker_at_half w chunk_size →
  (∀ (k : nat) (p : str) (i : Z),
      puncts !! k = Some p →
      last_occurrence w p i → chunk_size ≤ 2 * i →
      (∀ (k' : nat) (q : str) (j : Z),
          (k' < k)%nat → puncts !! k' = Some q →
          last_occurrence w q j → 2 * j < chunk_size) →
      window_end text chunk_size start = start + i + 2 ∧
      window_chunk text chunk_size start = strip (slice text start (start + i + 2)) ∧
      last (window_chunk text chunk_size start) = head p) ∧
  ((∀ (p : str) (j : Z), p ∈ puncts → last_occurrence w p j → 2 * j < chunk_size) →
   window_end text chunk_size start = start + chunk_size ∧
   window_chunk text chunk_size start = strip (slice text start (start + chunk_size))).
Proof.
  intros Hstart Hcs Hin w Hexact. split.
  - intros k p i Hk Hlast Hhalf Hbefore.
    assert (Hp : p ∈ puncts) by (apply list_elem_of_lookup; eauto).
    destruct (puncts_shape p Hp) as [Hne Hlen].
    pose proof (last_occurrence_rfind w p i Hne Hlast) as Hr.
    pose proof (Hexact p i Hp Hlast) as Hoff.
    assert (Hend : window_end text chunk_size start = start + i + 2).
    { unfold window_end. destruct (Z.ltb_spec (start + chunk_size) (len text)); [|lia].
      fold w. rewrite <- (take_drop_middle puncts k p Hk).
      rewrite find_cut_first.
      - rewrite Hr, Hlen. lia.
      - intros q Hq. apply list_elem_of_lookup in Hq as [k' Hk'].
        pose proof (lookup_lt_Some _ _ _ Hk') as Hlt.
        rewrite length_take in Hlt.
        rewrite lookup_take_lt in Hk' by lia.
        assert (Hq : q ∈ puncts) by (apply list_elem_of_lookup; eauto).
        apply rfind_before_half; [by apply puncts_shape|done|].
        intros j Hj. apply (Hbefore k' q j); [lia|done|done].
      - rewrite Hr. lia. }
    assert (Hchunk : window_chunk text chunk_size start
                     = strip (slice text start (start + i + 2)))
      by (unfold window_chunk; by rewrite Hend).
    split; [done|]. split; [done|]. rewrite Hchunk.
    apply (chunk_ends_with_punctuation text chunk_size); [done|lia|lia|done|].
    by destruct Hlast.
  - intros Hnone.
    assert (Hend : window_end text chunk_size start = start + chunk_size).
    { unfold window_end. destruct (Z.ltb_spec (start + chunk_size) (len text)); [|lia].
      fold w. replace (find_cut w chunk_size puncts) with (@None Z); [done|].
      symmetry. apply find_cut_None. intros p Hp.
      apply rfind_before_half; [by apply puncts_shape|done|].
      intros j Hj. by apply (Hnone p j). }
    split; [done|]. unfold window_chunk. by rewrite Hend.
Qed.

Lemma window_cut_by_first_marker_from_half_witness :
  let text := lit "aaaaaaa. b! cccc" in
  window_end text 12 0 = 0 + 7 + 2 ∧
  window_chunk text 12 0 = strip (slice text 0 (0 + 7 + 2)) ∧
  last (window_chunk text 12 0) = head (lit ". ").
Proof.
  refine (proj1 (window_cut_by_first_marker_from_half
                   (lit "aaaaaaa. b! cccc") 12 0 _ _ _ _)
                0%nat (lit ". ") 7 _ _ _ _).
  - reflexivity.
  - reflexivity.
  - reflexivity.
  - intros p i Hp Hlast.
    rewrite <- (last_occurrence_rfind _ p i (proj1 (puncts_shape p Hp)) Hlast).
    unfold puncts in Hp. rewrite !elem_of_cons, elem_of_nil in Hp.
    repeat destruct Hp as [->|Hp]; try done; by vm_compute.
  - reflexivity.
  - apply (rfind_found (slice (lit "aaaaaaa. b! cccc") 0 (0 + 12)) (lit ". "));
      [discriminate|by vm_compute].
  - lia.
  - intros k' q j Hk'. lia.
Defined.

End ChunkerFacts.

Module EmbeddingsFacts.

Import PyFacts Embeddings EmbeddingsSpec.

Section Facts.
Context `{P : Provider}.

(** *** The ranking *)

Lemma insert_hit_length (h : Z * score) (l : list (Z * score)) :
  length (insert_hit h l) = S (length l).
Proof.
  induction l as [|x l IH]; simpl; [done|].
  destruct (score_ltb x.2 h.2); simpl; by rewrite ?IH.
Qed.

Lemma insert_hit_Forall (Q : Z * score → Prop) (h : Z * score) (l : list (Z * score)) :
  Q h → Forall Q l → Forall Q (insert_hit h l).
Proof.
  intros Hh Hl. induction Hl as [|x l Hx Hl IH]; simpl; [by repeat constructor|].
  destruct (score_ltb x.2 h.2); repeat constructor; done.
Qed.

Lemma foldl_insert_hit_length (hs acc : list (Z * score)) :
  length (foldl (λ acc h, insert_hit h acc) acc hs) = (length acc + length hs)%nat.
Proof.
  revert acc. induction hs as [|h hs IH]; intros acc; simpl; [lia|].
  rewrite IH, insert_hit_length. lia.
Qed.

Lemma foldl_insert_hit_Forall (Q : Z * score → Prop) (hs acc : list (Z * score)) :
  Forall Q acc → Forall Q hs →
  Forall Q (foldl (λ acc h, insert_hit h acc) acc hs).
Proof.
  intros Hacc Hhs. revert acc Hacc.
  induction Hhs as [|h hs Hh Hhs IH]; intros acc Hacc; simpl; [done|].
  apply IH. by apply insert_hit_Forall.
Qed.

Lemma ranked_length (ix : Index) (q : vec) :
  length (ranked ix q) = length (rows ix).
Proof. unfold ranked. by rewrite foldl_insert_hit_length, length_imap. Qed.

(** Every label of the ranking is the position of a stored row. *)
Lemma ranked_labels (ix : Index) (q : vec) :
  Forall (λ h, 0 ≤ h.1 < len (rows ix)) (ranked ix q).
Proof.
  unfold ranked. apply foldl_insert_hit_Forall; [constructor|].
  apply Forall_lookup. intros i h Hi.
  rewrite list_lookup_imap in Hi.
  destruct (rows ix !! i) as [v|] eqn:Hv; [|done].
  simpl in Hi. injection Hi as <-. simpl.
  apply lookup_lt_Some in Hv. unfold len. lia.
Qed.

(** [index.search] answers exactly [k] pairs. *)
Lemma index_search_length (ix : Index) (q : vec) (k : Z) (hits : list (Z * score)) :
  index_search ix q k = Some hits → length hits = Z.to_nat k.
Proof.
  unfold index_search.
  destruct ((vdim q =? d ix)%nat && (0 <? k)); [|done].
  intros [= <-]. rewrite length_app, repeat_length, length_firstn. lia.
Qed.

(** Asked for no more than it stores, it answers the best [k] rows. *)
Lemma index_search_full (ix : Index) (q : vec) (k : Z) :
  vdim q = d ix → 0 < k → k ≤ len (rows ix) →
  index_search ix q k = Some (firstn (Z.to_nat k) (ranked ix q)).
Proof.
  intros Hd Hk Hle. unfold index_search.
  rewrite Hd, Nat.eqb_refl. destruct (Z.ltb_spec 0 k); [|lia]. simpl.
  rewrite length_firstn, ranked_length.
  replace (Z.to_nat k - Z.to_nat k `min` length (rows ix))%nat with 0%nat
    by (unfold len in *; lia).
  by rewrite app_nil_r.
Qed.

(** *** The result loop *)

Lemma collect_length_le (cs : list str) (hits : list (Z * score))
    (acc results : list (str * score)) :
  collect cs hits acc = Some results →
  (length results ≤ length acc + length hits)%nat.
Proof.
  revert acc. induction hits as [|[idx dist] hits IH]; intros acc; simpl.
  - intros [= <-]. lia.
  - destruct (idx <? len cs).
    + destruct (Py.index cs idx) as [c|]; [|done].
      intros Hc. apply IH in Hc. rewrite length_app in Hc. simpl in Hc. lia.
    + intros Hc. apply IH in Hc. lia.
Qed.

Lemma index_in_range {A} (l : list A) (i : Z) :
  0 ≤ i < len l → is_Some (Py.index l i).
Proof.
  intros Hi. unfold Py.index.
  destruct (Z.leb_spec 0 i); [|lia]. destruct (Z.ltb_spec i (len l)); [|lia].
  simpl. apply lookup_lt_is_Some. unfold len in *. lia.
Qed.

Lemma collect_all (cs : list str) (hits : list (Z * score)) (acc : list (str * score)) :
  Forall (λ h, 0 ≤ h.1 < len cs) hits →
  ∃ results, collect cs hits acc = Some results ∧
             length results = (length acc + length hits)%nat.
Proof.
  intros Hhits. revert acc.
  induction Hhits as [|[idx dist] hits Hh Hhits IH]; intros acc; simpl.
  - exists acc. split; [done|lia].
  - simpl in Hh. destruct (Z.ltb_spec idx (len cs)); [|lia].
    destruct (index_in_range cs idx Hh) as [c ->].
    destruct (IH (acc ++ [(c, dist)])) as [results [Hr Hlen]].
    exists results. split; [done|]. rewrite Hlen, length_app. simpl. lia.
Qed.

(** *** [search] *)

(** [search] never answers more than the clamped [top_k]. *)
Lemma search_length_le (w : World) (st : Store) (query : str) (top_k : option Z) :
  (length (search w st query top_k).2
   ≤ Z.to_nat (Z.min (or_default top_k Config.TOP_K_RESULTS) (len (chunks st))))%nat.
Proof.
  unfold search, search_body.
  destruct (index st) as [ix|]; [|simpl; lia].
  destruct (chunks st) as [|c cs] eqn:Hcs; [simpl; lia|].
  destruct (_get_embeddings_batch w [query]) as [w' [[|qe rest]|]]; simpl; try lia.
  destruct (index_search ix _ _) as [hits|] eqn:Hhits; simpl; [|lia].
  apply index_search_length in Hhits.
  destruct (collect (c :: cs) hits []) as [results|] eqn:Hres; simpl; [|lia].
  apply collect_length_le in Hres. simpl in Hres. lia.
Qed.

(** On an index with one row per chunk, when the provider answers the
    query with a vector of the index's width, [search] answers exactly
    the clamped [top_k] results. *)
Lemma search_length_eq (w w' : World) (st : Store) (query : str) (top_k : option Z)
    (ix : Index) (query_embedding : vec) (rest : list vec) :
  index st = Some ix → chunks st ≠ [] →
  length (rows ix) = length (chunks st) →
  embed_call w [query] = (w', Some (query_embedding :: rest)) →
  vdim (normalize_L2 query_embedding) = d ix →
  0 < or_default top_k Config.TOP_K_RESULTS →
  length (search w st query top_k).2
  = Z.to_nat (Z.min (or_default top_k Config.TOP_K_RESULTS) (len (chunks st))).
Proof.
  intros Hix Hne Hrows Hcall Hdim Hk. unfold search, search_body.
  rewrite Hix. destruct (chunks st) as [|c cs] eqn:Hcs; [done|].
  unfold _get_embeddings_batch. rewrite Hcall.
  set (k := Z.min _ _).
  assert (Hk' : 0 < k ≤ len (rows ix)).
  { unfold k, len in *. rewrite Hrows. simpl. lia. }
  rewrite index_search_full by (done || lia).
  destruct (collect_all (c :: cs) (firstn (Z.to_nat k) (ranked ix (normalize_L2 query_embedding))) [])
    as [results [Hres Hlen]].
  { apply Forall_take. eapply Forall_impl; [apply ranked_labels|].
    intros h Hh. simpl in Hh. unfold len in *. rewrite Hrows in Hh. done. }
  rewrite Hres. simpl. rewrite Hlen, length_firstn, ranked_length. simpl.
  unfold len in *. lia.
Qed.

(** [top_k = 0] and [top_k = None] are both read as the default. *)
Lemma search_falsy_top_k (w : World) (st : Store) (query : str) :
  search w st query (Some 0) = search w st query (Some Config.TOP_K_RESULTS) ∧
  search w st query None = search w st query (Some Config.TOP_K_RESULTS).
Proof. split; reflexivity. Qed.

Lemma is_ready_spec (st : Store) :
  is_ready st = true ↔ is_Some (index st) ∧ chunks st ≠ [].
Proof.
  unfold is_ready. destruct (index st) as [ix|].
  - destruct (chunks st); simpl; split; intros Hr;
      (done || (split; [by eexists|done]) || by destruct Hr).
  - split; [done|]. intros [[? ?] _]. done.
Qed.

(** C6: on a built index holding [n] chunks, a [top_k] above [n] gets at
    most [n] results and no exception ([search] is a total function); when
    the index has a row per chunk and the provider answers the query, it
    gets exactly [n]. *)
Theorem search_top_k_clamped (w : World) (st : Store) (query : str) (top_k : Z) :
  is_ready st = true → len (chunks st) < top_k →
  (length (search w st query (Some top_k)).2 ≤ length (chunks st))%nat ∧
  ∀ (w' : World) (ix : Index) (query_embedding : vec) (rest : list vec),
    index st = Some ix → length (rows ix) = length (chunks st) →
    embed_call w [query] = (w', Some (query_embedding :: rest)) →
    vdim (normalize_L2 query_embedding) = d ix →
    length (search w st query (Some top_k)).2 = length (chunks st).
Proof.
  intros Hready Hk. apply is_ready_spec in Hready as [_ Hne].
  pose proof (len_nonneg (chunks st)) as Hn.
  assert (Hdef : or_default (Some top_k) Config.TOP_K_RESULTS = top_k).
  { simpl. destruct (Z.eqb_spec top_k 0); [lia|done]. }
  split.
  - pose proof (search_length_le w st query (Some top_k)) as Hle.
    rewrite Hdef in Hle. unfold len in *. lia.
  - intros w' ix qe rest Hix Hrows Hcall Hdim.
    rewrite (search_length_eq w w' st query (Some top_k) ix qe rest) by (done || lia).
    rewrite Hdef. unfold len in *. lia.
Qed.

(** C8: on a built index, [top_k = 0] and [top_k = None] behave as
    [top_k = TOP_K_RESULTS = 3]; when the provider answers the query, the
    results number [min(3, n)], which is not zero. *)
Theorem search_top_k_zero_is_default (w w' : World) (st : Store) (query : str)
    (ix : Index) (query_embedding : vec) (rest : list vec) :
  index st = Some ix → chunks st ≠ [] →
  length (rows ix) = length (chunks st) →
  embed_call w [query] = (w', Some (query_embedding :: rest)) →
  vdim (normalize_L2 query_embedding) = d ix →
  search w st query (Some 0) = search w st query (Some Config.TOP_K_RESULTS) ∧
  search w st query None = search w st query (Some Config.TOP_K_RESULTS) ∧
  length (search w st query (Some 0)).2 = Z.to_nat (Z.min 3 (len (chunks st))) ∧
  length (search w st query None).2 = Z.to_nat (Z.min 3 (len (chunks st))) ∧
  (0 < length (search w st query (Some 0%Z)).2)%nat.
Proof.
  intros Hix Hne Hrows Hcall Hdim.
  destruct (search_falsy_top_k w st query) as [H0 HNone].
  pose proof (search_length_eq w w' st query (Some 0) ix query_embedding rest
                Hix Hne Hrows Hcall Hdim ltac:(done)) as Hlen.
  change (or_default (Some 0) Config.TOP_K_RESULTS) with 3 in Hlen.
  split; [done|]. split; [done|]. split; [done|]. split.
  - by rewrite HNone, <- H0.
  - rewrite Hlen. destruct (chunks st); [done|]. unfold len. simpl. lia.
Qed.

(** *** A build that succeeds *)

Lemma slice_nat {A} (l : list A) (a b : nat) :
  (a ≤ b)%nat → slice l (Z.of_nat a) (Z.of_nat b) = take (b - a) (drop a l).
Proof.
  intros Hab. destruct (Nat.le_gt_cases b (length l)) as [Hb|Hb].
  - rewrite slice_inside by (unfold len; lia).
    rewrite Nat2Z.id. f_equal. lia.
  - rewrite slice_to_end by (unfold len; lia).
    rewrite Nat2Z.id. symmetry. apply take_ge. rewrite length_drop. lia.
Qed.

Lemma windows_concat {A} (l : list A) (step k : nat) :
  concat (map (λ i, take step (drop i l)) (map (λ j, j * step)%nat (seq 0 k)))
  = take (k * step) l.
Proof.
  induction k as [|k IH]; [done|].
  rewrite seq_S, !map_app, concat_app, IH. simpl.
  rewrite app_nil_r, take_take_drop. f_equal. lia.
Qed.

(** The batches, put end to end, are the chunks. *)
Lemma batches_concat (text_chunks : list str) :
  concat (batches text_chunks) = text_chunks.
Proof.
  unfold batches, range_step.
  erewrite map_ext; [rewrite windows_concat|].
  - apply take_ge. unfold batch_size.
    pose proof (Nat.div_mod (length text_chunks + 10 - 1) 10 ltac:(lia)).
    pose proof (Nat.mod_upper_bound (length text_chunks + 10 - 1) 10 ltac:(lia)).
    lia.
  - intros i. simpl. rewrite slice_nat by lia. f_equal. lia.
Qed.

Lemma embed_batches_length (w w' : World) (bs : list (list str)) (acc embeddings : list vec) :
  one_per_text →
  embed_batches w bs acc = (w', Some embeddings) →
  length embeddings = (length acc + length (concat bs))%nat.
Proof.
  intros Hhonest. revert w acc. induction bs as [|b bs IH]; intros w acc; simpl.
  - intros [= _ <-]. lia.
  - unfold _get_embeddings_batch.
    destruct (embed_call w b) as [w1 [vs|]] eqn:Hcall; [|done].
    intros Hrun. apply IH in Hrun. apply Hhonest in Hcall.
    rewrite Hrun, !length_app. lia.
Qed.

(** What a successful [create_embeddings] leaves: the chunks it was
    given and an index of the store's width with one row per chunk. *)
Lemma create_embeddings_success (w w' : World) (st st' : Store) (text_chunks : list str) :
  one_per_text →
  create_embeddings w st text_chunks = (w', st', true) →
  is_ready st' = true ∧ chunks st' = text_chunks ∧
  ∃ ix, index st' = Some ix ∧ d ix = dimension st ∧
        length (rows ix) = length text_chunks.
Proof.
  intros Hhonest. unfold create_embeddings.
  destruct text_chunks as [|c cs] eqn:Hcs; [done|]. rewrite <- Hcs.
  destruct (embed_batches w (batches text_chunks) []) as [w1 [embeddings|]] eqn:Hrun;
    [|done].
  apply embed_batches_length in Hrun; [|done]. rewrite batches_concat in Hrun.
  unfold np_array. destruct embeddings as [|v vs] eqn:Hemb; [done|]. rewrite <- Hemb.
  destruct (forallb _ vs); [|done].
  unfold index_add. destruct (forallb _ (map normalize_L2 embeddings)); [|done].
  intros [= _ <- ]. simpl.
  split; [by rewrite Hcs|]. split; [done|].
  eexists. split; [done|]. split; [done|].
  simpl. rewrite length_map, Hemb, Hrun. done.
Qed.

(** *** A build that fails *)

(** When a batch raises, [create_embeddings] has already replaced the
    chunks, and it leaves the index as it found it. *)
Lemma create_embeddings_batch_failure (w w' : World) (st : Store) (text_chunks : list str) :
  text_chunks ≠ [] →
  embed_batches w (batches text_chunks) [] = (w', None) →
  create_embeddings w st text_chunks = (w', set_chunks st text_chunks, false).
Proof.
  intros Hne Hfail. unfold create_embeddings.
  destruct text_chunks; [done|]. by rewrite Hfail.
Qed.

(** On a store that was never built, a failed build leaves nothing to
    query. *)
Lemma failed_build_on_fresh_store (w w' w2 : World) (st : Store)
    (text_chunks : list str) (query : str) (top_k : option Z) :
  index st = None → text_chunks ≠ [] →
  embed_batches w (batches text_chunks) [] = (w', None) →
  let st' := (create_embeddings w st text_chunks).1.2 in
  is_ready st' = false ∧ (search w2 st' query top_k).2 = [].
Proof.
  intros Hix Hne Hfail. rewrite (create_embeddings_batch_failure w w') by done.
  simpl. unfold is_ready, search, search_body. simpl. by rewrite Hix.
Qed.

(** On a store that holds an earlier build, the same failure leaves the
    store ready, with the new chunks beside the old index. *)
Lemma failed_build_on_built_store (w w' : World) (st : Store)
    (text_chunks : list str) (ix : Index) :
  index st = Some ix → text_chunks ≠ [] →
  embed_batches w (batches text_chunks) [] = (w', None) →
  let st' := (create_embeddings w st text_chunks).1.2 in
  is_ready st' = true ∧ chunks st' = text_chunks ∧ index st' = Some ix.
Proof.
  intros Hix Hne Hfail. rewrite (create_embeddings_batch_failure w w') by done.
  simpl. unfold is_ready. simpl. rewrite Hix.
  destruct text_chunks; [done|]. done.
Qed.

End Facts.

(** *** Runs with the scripted provider *)

Section Runs.

Abbreviation create_embeddings := (@create_embeddings Toy.ZNumeric Toy.Scripted).
Abbreviation search := (@search Toy.ZNumeric Toy.Scripted).
Abbreviation init := (@init Toy.ZNumeric).
Abbreviation is_ready := (@is_ready Toy.ZNumeric).
Abbreviation Index := (@Index Toy.ZNumeric).
Abbreviation chunks := (@chunks Toy.ZNumeric).
Abbreviation index := (@index Toy.ZNumeric).
Abbreviation rows := (@rows Toy.ZNumeric).
Abbreviation d := (@d Toy.ZNumeric).
Abbreviation built_store := Toy.built_store.

Lemma search_top_k_clamped_witness :
  (length (search [true] built_store (lit "alpha") (Some 5%Z)).2
   ≤ length (chunks built_store))%nat ∧
  length (search [true] built_store (lit "alpha") (Some 5)).2
  = length (chunks built_store).
Proof.
  destruct (@search_top_k_clamped Toy.ZNumeric Toy.Scripted
              [true] built_store (lit "alpha") 5) as [Hle Heq].
  - by vm_compute.
  - by vm_compute.
  - split; [exact Hle|].
    apply (Heq [] (default (IndexFlatIP 0) (index built_store))
               (Toy.toy_embedding (lit "alpha")) []); by vm_compute.
Defined.

Lemma search_top_k_zero_is_default_witness :
  search [true] built_store (lit "alpha") (Some 0)
  = search [true] built_store (lit "alpha") (Some Config.TOP_K_RESULTS) ∧
  search [true] built_store (lit "alpha") None
  = search [true] built_store (lit "alpha") (Some Config.TOP_K_RESULTS) ∧
  length (search [true] built_store (lit "alpha") (Some 0)).2
  = Z.to_nat (Z.min 3 (len (chunks built_store))) ∧
  length (search [true] built_store (lit "alpha") None).2
  = Z.to_nat (Z.min 3 (len (chunks built_store))) ∧
  (0 < length (search [true] built_store (lit "alpha") (Some 0%Z)).2)%nat.
Proof.
  refine (@search_top_k_zero_is_default Toy.ZNumeric Toy.Scripted
            [true] [] built_store (lit "alpha")
            (default (IndexFlatIP 0) (index built_store))
            (Toy.toy_embedding (lit "alpha")) [] _ _ _ _ _).
  - by vm_compute.
  - by vm_compute.
  - by vm_compute.
  - by vm_compute.
  - by vm_compute.
Defined.

(** C1, at the failing input: a store built from one chunk is rebuilt
    from two others and the provider raises on the batch. The call answers
    [False], yet the store says it is ready, and a search pairs the chunks
    of the failed build with the row of the old one. *)
Theorem failed_rebuild_leaves_store_ready :
  let '(w1, st1, ok1) := create_embeddings [true; false; true] init [lit "alpha"] in
  let '(w2, st2, ok2) := create_embeddings w1 st1 [lit "beta beta"; lit "gamma"] in
  ok1 = true ∧ ok2 = false ∧
  is_ready st2 = true ∧
  chunks st2 = [lit "beta beta"; lit "gamma"] ∧
  index st2 = index st1 ∧
  (search w2 st2 (lit "alpha") (Some 3)).2 = [(lit "beta beta", 1); (lit "gamma", -1)].
Proof. by vm_compute. Qed.

End Runs.

End EmbeddingsFacts.

Module OpenAIHelperFacts.

Import PyFacts OpenAIHelper InsightsSpec.

(** *** The token budget *)

Section Budget.
Context {text : Type} `{T : Tokenizer text}.

Lemma truncate_within (max_tokens : Z) (t : text) :
  count_tokens t ≤ max_tokens → truncate max_tokens t = t.
Proof.
  intros Hle. unfold truncate.
  by destruct (Z.ltb_spec max_tokens (count_tokens t)); [lia|].
Qed.

Lemma truncate_over (max_tokens : Z) (t : text) :
  0 ≤ max_tokens → max_tokens < count_tokens t →
  truncate max_tokens t = decode (slice_to (encode t) (Z.to_nat max_tokens)) ∧
  len (slice_to (encode t) (Z.to_nat max_tokens)) = max_tokens.
Proof.
  intros H0 Hlt. unfold truncate.
  destruct (Z.ltb_spec max_tokens (count_tokens t)); [|lia]. split; [done|].
  unfold slice_to, len, count_tokens in *. rewrite length_firstn. unfold len in *. lia.
Qed.

Lemma summary_ceiling_pos (model : str) : 0 < summary_ceiling model.
Proof. unfold summary_ceiling. by case_bool_decide. Qed.

(** C5, amended: a text within the ceiling [N] of the model goes on
    unchanged; a text above it goes on as the decode of the first [N]
    tokens of its encoding, a prefix of exactly [N] tokens. The token
    count of what goes on is [N] when it encodes back to that prefix, which
    the code does not check. *)
Theorem summary_text_within_budget (model : str) (t : text) :
  let N := summary_ceiling model in
  let kept := slice_to (encode t) (Z.to_nat N) in
  (count_tokens t ≤ N → summary_text model t = t) ∧
  (N < count_tokens t →
   summary_text model t = decode kept ∧ len kept = N ∧
   (encode (decode kept) = kept → count_tokens (summary_text model t) = N)).
Proof.
  intros N kept. unfold summary_text. fold N. split.
  - apply truncate_within.
  - intros Hover. pose proof (summary_ceiling_pos model) as Hpos. fold N in Hpos.
    destruct (truncate_over N t ltac:(lia) Hover) as [Htr Hlen].
    fold kept in Htr, Hlen. split; [done|]. split; [done|].
    intros Hback. rewrite Htr. unfold count_tokens. by rewrite Hback.
Qed.

End Budget.

(** With the byte-level tokenizer: 3001 letters are cut to 3000. *)
Lemma summary_text_within_budget_witness :
  let t := repeat 97%N 3001 in
  let model := lit "gpt-3.5-turbo" in
  let kept := slice_to (Toy.utf8_encode t) 3000 in
  @summary_text _ Toy.ByteTokenizer model t = Toy.utf8_decode kept ∧
  len kept = 3000 ∧
  (Toy.utf8_encode (Toy.utf8_decode kept) = kept →
   @count_tokens _ Toy.ByteTokenizer (@summary_text _ Toy.ByteTokenizer model t) = 3000).
Proof.
  apply (proj2 (@summary_text_within_budget _ Toy.ByteTokenizer
                  (lit "gpt-3.5-turbo") (repeat 97%N 3001))).
  by vm_compute.
Defined.

(** C5 fails as stated: a text of 2999 letters and one accented letter
    has 3001 byte tokens; the cut falls inside the accented letter, the
    decode replaces the broken half by U+FFFD, and what goes on counts
    3002 tokens, not 3000. *)
Lemma token_count_after_truncation_counterexample :
  let t := repeat 97%N 2999 ++ [233%N] in
  let model := lit "gpt-3.5-turbo" in
  let sent := @summary_text _ Toy.ByteTokenizer model t in
  summary_ceiling model = 3000 ∧
  @count_tokens _ Toy.ByteTokenizer t = 3001 ∧
  sent = Toy.utf8_decode (slice_to (Toy.utf8_encode t) 3000) ∧
  sent = repeat 97%N 2999 ++ [Toy.REPLACEMENT] ∧
  @count_tokens _ Toy.ByteTokenizer sent = 3002 ∧
  @count_tokens _ Toy.ByteTokenizer sent ≠ summary_ceiling model.
Proof. by vm_compute. Qed.

(** *** The history window *)

Lemma slice_last_suffix {A} (l : list A) (k : nat) :
  ∃ older, l = older ++ slice_last l k ∧
           length (slice_last l k) = Nat.min k (length l).
Proof.
  exists (firstn (length l - k) l). unfold slice_last. split.
  - by rewrite firstn_skipn.
  - rewrite length_skipn. lia.
Qed.

(** C7: what [answer_question] sends to the generation provider is the
    system message, then the last 4 messages of the history (all of them
    when there are fewer, none when there is no history) in their order,
    then the user turn. *)
Theorem answer_messages_history_window `{G : Generator}
    (model question : str) (context_chunks : list str)
    (chat_history : option (list message)) :
  ∃ older window,
    default [] chat_history = older ++ window ∧
    length window = Nat.min 4 (length (default [] chat_history)) ∧
    answer_messages question context_chunks chat_history
    = {| role := lit "system"; content := SYSTEM_PROMPT |}
      :: window
      ++ [ {| role := lit "user"; content := user_message question context_chunks |} ] ∧
    answer_question model question context_chunks chat_history
    = strip <$> chat_completion model
        ({| role := lit "system"; content := SYSTEM_PROMPT |}
         :: window
         ++ [ {| role := lit "user"; content := user_message question context_chunks |} ]).
Proof.
  destruct chat_history as [h|]; simpl.
  - destruct (slice_last_suffix h 4) as [older [Hsplit Hlen]].
    exists older, (slice_last h 4). done.
  - by exists [], [].
Qed.

(** *** The insights parser *)

Lemma item_from_later (lines : list str) (line : str) (item : str) :
  item_from lines item → item_from (lines ++ [line]) item.
Proof.
  intros (before & l & after & header & -> & Hl).
  exists before, l, (after ++ [line]), header.
  split; [by rewrite <- app_assoc|done].
Qed.

Lemma item_ok_later (lines : list str) (line : str) (item : str) :
  item_ok lines item → item_ok (lines ++ [line]) item.
Proof. intros (? & ? & ?). repeat split; try done. by apply item_from_later. Qed.

Lemma parse_inv_initial : parse_inv [] (None, empty_insights).
Proof.
  split; [|split]; simpl.
  - unfold empty_insights, section_keys. rewrite !dom_insert_L, dom_empty_L.
    set_solver.
  - intros key items item Hkey Hitem. unfold empty_insights in Hkey.
    rewrite !lookup_insert in Hkey.
    repeat case_decide; simplify_eq; try by apply elem_of_nil in Hitem.
  - done.
Qed.

Lemma parse_inv_header (seen : list str) (st : parse_state) (line : str) (key : string) :
  parse_inv seen st → key ∈ section_keys → is_header (strip line) = true →
  parse_inv (seen ++ [line]) (Some key, st.2).
Proof.
  intros (Hdom & Hitems & _) Hkey Hhead. split; [done|split]; simpl.
  - intros k items item Hk Hitem. apply item_ok_later. by eapply Hitems.
  - intros k [= <-]. split; [done|]. exists line. split; [|done].
    apply elem_of_app. right. by left.
Qed.

Lemma parse_inv_skip (seen : list str) (st : parse_state) (line : str) :
  parse_inv seen st → parse_inv (seen ++ [line]) st.
Proof.
  intros (Hdom & Hitems & Hcur). split; [done|split].
  - intros k items item Hk Hitem. apply item_ok_later. by eapply Hitems.
  - intros k Hk. destruct (Hcur k Hk) as (? & header & ? & ?). split; [done|].
    exists header. split; [|done]. apply elem_of_app. by left.
Qed.

(** One line keeps the invariant, and raises nothing. *)
Lemma parse_line_inv (seen : list str) (st : parse_state) (line : str) :
  parse_inv seen st →
  ∃ st', parse_line st line = Some st' ∧ parse_inv (seen ++ [line]) st'.
Proof.
  intros Hinv. destruct st as [cur m]. unfold parse_line.
  destruct (contains (strip line) (lit "KEY ENTITIES:")) eqn:H1.
  { eexists. split; [done|]. apply (parse_inv_header seen (cur, m)); [done| |].
    - unfold section_keys. set_solver.
    - unfold is_header. by rewrite H1. }
  destruct (contains (strip line) (lit "MAIN THEMES:")) eqn:H2.
  { eexists. split; [done|]. apply (parse_inv_header seen (cur, m)); [done| |].
    - unfold section_keys. set_solver.
    - unfold is_header. by rewrite H2, orb_true_r. }
  destruct (contains (strip line) (lit "ACTION ITEMS:")) eqn:H3.
  { eexists. split; [done|]. apply (parse_inv_header seen (cur, m)); [done| |].
    - unfold section_keys. set_solver.
    - unfold is_header. by rewrite H3, !orb_true_r. }
  destruct (startswith (strip line) (lit "- ")) eqn:Hdash; cbn [andb];
    [|eexists; split; [done|by apply parse_inv_skip]].
  destruct (truthy cur) eqn:Hcur; cbn [andb];
    [|eexists; split; [done|by apply parse_inv_skip]].
  destruct (strip (slice_from (strip line) 2)) as [|c item] eqn:Hitem;
    [eexists; split; [done|by apply parse_inv_skip]|].
  case_bool_decide as Hnone;
    [|eexists; split; [done|by apply parse_inv_skip]].
  destruct cur as [key|]; [|done].
  destruct Hinv as (Hdom & Hitems & Hsec). cbn [fst snd] in *.
  destruct (Hsec key eq_refl) as (Hkey & header & Hheader & Hhead).
  assert (Hsome : is_Some (m !! key)) by (apply elem_of_dom; by rewrite Hdom).
  destruct Hsome as [l Hl]. unfold append_item. rewrite Hl. simpl.
  eexists. split; [done|]. split; [|split]; cbn [fst snd].
  - rewrite dom_insert_L, Hdom.
    by apply subseteq_union_1_L, singleton_subseteq_l.
  - intros k items item' Hk Hin. rewrite lookup_insert in Hk.
    case_decide as Hkk.
    + injection Hk as <-. apply elem_of_app in Hin as [Hin|Hin].
      * apply item_ok_later. by eapply Hitems.
      * apply list_elem_of_singleton in Hin as ->.
        split; [done|]. split; [done|].
        exists seen, line, [], header. by rewrite Hitem.
    + apply item_ok_later. by eapply Hitems.
  - intros k [= <-]. split; [done|]. exists header. split; [|done].
    apply elem_of_app. by left.
Qed.

Lemma parse_lines_inv (lines seen : list str) (st : parse_state) :
  parse_inv seen st →
  ∃ st', parse_lines st lines = Some st' ∧ parse_inv (seen ++ lines) st'.
Proof.
  revert seen st. induction lines as [|line lines IH]; intros seen st Hinv; simpl.
  - exists st. by rewrite app_nil_r.
  - destruct (parse_line_inv seen st line Hinv) as [st1 [-> Hinv1]]. simpl.
    destruct (IH _ _ Hinv1) as [st' [Hrun Hinv']].
    exists st'. split; [done|]. by rewrite <- app_assoc in Hinv'.
Qed.

(** C9: for every input, [_parse_insights] returns (it raises nothing) a
    dictionary with exactly the keys entities, themes and action_items;
    every item of its lists is non-empty, is not 'none identified' in any
    letter case, and is the text after the dash of a line that starts with
    '- ' once stripped and that comes after a section header. *)
Theorem parse_insights_shape (content : str) :
  ∃ m,
    _parse_insights content = Some m ∧
    dom m = section_keys ∧
    ∀ key items item,
      m !! key = Some items → item ∈ items →
      item ≠ [] ∧ lower item ≠ lit "none identified" ∧
      item_from (split_on nl content) item.
Proof.
  destruct (parse_lines_inv (split_on nl content) [] _ parse_inv_initial)
    as [[cur m] [Hrun (Hdom & Hitems & _)]].
  exists m. unfold _parse_insights. rewrite Hrun. simpl in *.
  split; [done|]. split; [done|].
  intros key items item Hkey Hitem. by eapply Hitems.
Qed.

End OpenAIHelperFacts.

Module DedupFacts.

Import Dedup.

Section Threshold.
Variable similarity_threshold : float.

Abbreviation dedup := (dedup_loop similarity_threshold).
Abbreviation dup := (is_duplicate similarity_threshold).

Lemma is_duplicate_spec (normalized : str) (seen : gset str) :
  dup normalized seen = true ↔
  ∃ seen_chunk, seen_chunk ∈ seen ∧
                too_similar similarity_threshold normalized seen_chunk = true.
Proof.
  unfold is_duplicate. rewrite existsb_exists.
  split; intros [x [Hx Hsim]]; exists x; split; try done.
  - apply elem_of_elements. by apply list_elem_of_In.
  - apply list_elem_of_In. by apply elem_of_elements.
Qed.






End Threshold.

(** Two runs with the default threshold: chunks that differ in case and
    spacing only are merged; at exactly 4 words shared out of 5 the ratio
    does not pass 0.8, and both chunks stay. *)
Example merge_overlapping_chunks_runs :
  merge_overlapping_chunks
    [lit "Hello world"; lit "hello   WORLD"; lit "foo bar"] default_threshold
  = [lit "Hello world"; lit "foo bar"] ∧
  merge_overlapping_chunks
    [lit "a b c d e"; lit "a b c d"; lit "a b c d e f"] default_threshold
  = [lit "a b c d e"; lit "a b c d"].
Proof. by vm_compute. Qed.

End DedupFacts.

Module StripFacts.

Import PyFacts ChunkSpec.

Lemma lstrip_fixed (s : str) :
  (∀ c, head s = Some c → isspace c = false) → lstrip s = s.
Proof.
  destruct s as [|x s]; [done|]. intros Hh. simpl. by rewrite (Hh x eq_refl).
Qed.

Lemma lstrip_lstrip (s : str) : lstrip (lstrip s) = lstrip s.
Proof. apply lstrip_fixed. intros c. apply lstrip_head. Qed.

Lemma rstrip_rstrip (s : str) : rstrip (rstrip s) = rstrip s.
Proof. unfold rstrip. by rewrite rev_involutive, lstrip_lstrip. Qed.

Lemma lstrip_snoc_ink (s : str) (c : ascii) :
  isspace c = false → lstrip (s ++ [c]) = lstrip s ++ [c].
Proof.
  intros Hc. induction s as [|x s IH]; simpl; [by rewrite Hc|].
  destruct (isspace x); [done|]. done.
Qed.

Lemma rstrip_cons_ink (c : ascii) (s : str) :
  isspace c = false → rstrip (c :: s) = c :: rstrip s.
Proof.
  intros Hc. unfold rstrip. simpl.
  by rewrite lstrip_snoc_ink, rev_app_distr.
Qed.

(** Stripping the right end leaves the left end as it is. *)
Lemma lstrip_rstrip_fixed (s : str) : lstrip s = s → lstrip (rstrip s) = rstrip s.
Proof.
  destruct s as [|x s]; [done|]. simpl.
  destruct (isspace x) eqn:Hx.
  - intros Heq. exfalso.
    destruct (lstrip_suffix s) as [pre [Hs _]].
    rewrite Heq in Hs. apply (f_equal length) in Hs.
    rewrite length_app in Hs. simpl in Hs. lia.
  - intros _. rewrite rstrip_cons_ink by done. simpl. by rewrite Hx.
Qed.

(** [strip] is idempotent. *)
Lemma strip_strip (s : str) : strip (strip s) = strip s.
Proof.
  unfold strip.
  rewrite (lstrip_rstrip_fixed (lstrip s)) by apply lstrip_lstrip.
  apply rstrip_rstrip.
Qed.

Lemma lstrip_strip (s : str) : lstrip (strip s) = strip s.
Proof. unfold strip. apply lstrip_rstrip_fixed, lstrip_lstrip. Qed.

(** A stripped text does not start with whitespace. *)
Lemma strip_head (s : str) (c : ascii) : head (strip s) = Some c → isspace c = false.
Proof. rewrite <- lstrip_strip. apply lstrip_head. Qed.

Lemma rstrip_prefix (s : str) :
  ∃ post, s = rstrip s ++ post ∧ Forall (λ c, isspace c = true) post.
Proof.
  destruct (lstrip_suffix (rev s)) as [pre [Heq Hpre]].
  exists (rev pre). split.
  - unfold rstrip. rewrite <- rev_app_distr, <- Heq. by rewrite rev_involutive.
  - apply Forall_forall. intros c Hc. apply (proj1 (elem_of_rev pre c)) in Hc.
    rewrite Forall_forall in Hpre. by apply Hpre.
Qed.

(** What [strip] removes is whitespace, at both ends. *)
Lemma strip_decompose (s : str) :
  ∃ pre post, s = pre ++ strip s ++ post ∧ blank pre ∧ blank post.
Proof.
  destruct (lstrip_suffix s) as [pre [Hs Hpre]].
  destruct (rstrip_prefix (lstrip s)) as [post [Ht Hpost]].
  exists pre, post. unfold strip. split; [|done]. by rewrite <- Ht.
Qed.

Lemma strip_part_of (s : str) : part_of s (strip s).
Proof. destruct (strip_decompose s) as (pre & post & Hs & _). by exists pre, post. Qed.

Lemma strip_length (s : str) : len (strip s) ≤ len s.
Proof.
  destruct (strip_decompose s) as (pre & post & Hs & _).
  apply (f_equal length) in Hs. rewrite !length_app in Hs. unfold len. lia.
Qed.

(** [not s.strip()] means that [s] is blank. *)
Lemma strip_nil_iff (s : str) : strip s = [] ↔ blank s.
Proof.
  split.
  - intros Hnil. destruct (strip_decompose s) as (pre & post & Hs & Hpre & Hpost).
    rewrite Hnil in Hs. rewrite Hs. simpl. by apply Forall_app.
  - intros Hblank. destruct (strip s) as [|c t] eqn:Hstrip; [done|]. exfalso.
    assert (Hc : c ∈ s).
    { destruct (strip_part_of s) as (pre & post & Hs). rewrite Hs, Hstrip.
      apply elem_of_app. right. apply elem_of_app. left. by left. }
    assert (Hink : isspace c = false).
    { apply (strip_head s). by rewrite Hstrip. }
    unfold blank in Hblank. rewrite Forall_forall in Hblank.
    rewrite (Hblank c Hc) in Hink. done.
Qed.

Lemma part_of_trans (a b c : str) : part_of a b → part_of b c → part_of a c.
Proof.
  intros (p1 & q1 & ->) (p2 & q2 & ->). exists (p1 ++ p2), (q2 ++ q1).
  by rewrite <- !app_assoc.
Qed.

Lemma slice_part_of (s : str) (a b : Z) : part_of s (slice s a b).
Proof.
  unfold slice.
  set (lo := Z.to_nat (clamp_index (len s) a)).
  set (n := Z.to_nat (clamp_index (len s) b - clamp_index (len s) a)).
  exists (take lo s), (drop n (drop lo s)).
  by rewrite take_drop, take_drop.
Qed.

(** A slice is never longer than the distance between its bounds. *)
Lemma slice_length_le {A} (s : list A) (a b : Z) :
  a ≤ b → len (slice s a b) ≤ b - a.
Proof.
  intros Hab. unfold slice, clamp_index, len.
  rewrite length_firstn, length_skipn.
  pose proof (len_nonneg s) as Hn. unfold len in *.
  destruct (Z.ltb_spec a 0); destruct (Z.ltb_spec b 0); lia.
Qed.

End StripFacts.

Module ChunkerMore.

Import PyFacts StripFacts Chunker ChunkerSpec ChunkSpec ChunkerFacts PyMore DocumentProcessor.

(** For a positive chunk size the window ends after its start and no
    later than [start + chunk_size], wherever it starts. *)
Lemma window_end_range (text : str) (cs start : Z) :
  0 < cs → start < window_end text cs start ≤ start + cs.
Proof.
  intros Hcs. unfold window_end.
  destruct (Z.ltb_spec (start + cs) (len text)); [|lia].
  destruct (find_cut _ cs puncts) as [off|] eqn:Hcut; [|lia].
  apply find_cut_Some in Hcut as [p [Hp [-> Hhalf]]].
  destruct (puncts_shape p Hp) as [Hne Hlen].
  assert (Hfit : rfind (slice text start (start + cs)) p + len p
                 ≤ len (slice text start (start + cs))).
  { apply occurs_at_fits; [done|]. apply rfind_found; [done|lia]. }
  pose proof (slice_length_le text start (start + cs) ltac:(lia)). lia.
Qed.

(** A chunk that a window yields is well formed. *)
Lemma window_chunk_well_formed (text : str) (cs start : Z) :
  0 < cs → window_chunk text cs start ≠ [] →
  well_formed_chunk text cs (window_chunk text cs start).
Proof.
  intros Hcs Hne. split; [done|]. unfold window_chunk in *.
  split; [apply strip_strip|]. split.
  - pose proof (strip_length (slice text start (window_end text cs start))).
    pose proof (window_end_range text cs start Hcs).
    pose proof (slice_length_le text start (window_end text cs start) ltac:(lia)).
    lia.
  - eapply part_of_trans; [apply slice_part_of|apply strip_part_of].
Qed.

Lemma append_chunk_Forall (P : str → Prop) (chunks : list str) (chunk : str) :
  Forall P chunks → (chunk ≠ [] → P chunk) → Forall P (append_chunk chunks chunk).
Proof.
  intros Hacc Hc. destruct chunk as [|x chunk]; [done|]. simpl.
  apply Forall_app. split; [done|]. constructor; [by apply Hc|constructor].
Qed.

(** Whatever the loop returns, with whatever fuel, holds well-formed
    chunks only. *)
Lemma chunk_loop_well_formed (text : str) (cs o : Z) (fuel : nat) :
  0 < cs →
  ∀ (start : Z) (acc chunks : list str),
    Forall (well_formed_chunk text cs) acc →
    chunk_loop fuel text cs o (start, acc) = Some chunks →
    Forall (well_formed_chunk text cs) chunks.
Proof.
  intros Hcs. induction fuel as [|fuel IH]; intros start acc chunks Hacc; simpl.
  - destruct (start <? len text); [done|]. by intros [= <-].
  - destruct (start <? len text); [|by intros [= <-]].
    apply IH. apply append_chunk_Forall; [done|].
    by apply window_chunk_well_formed.
Qed.

(** X1: every chunk that the window loop of [chunk_text] yields is not
    empty, has no whitespace at either end, is no longer than the chunk
    size, and is a contiguous part of the text. *)
Theorem chunk_text_chunks_well_formed
    (fuel : nat) (text : str) (chunk_size overlap : option Z) (chunks : list str) :
  let cs := or_default chunk_size Config.CHUNK_SIZE in
  0 < cs → cs < len text →
  chunk_text fuel text chunk_size overlap = Some chunks →
  Forall (well_formed_chunk text cs) chunks.
Proof.
  intros cs Hcs Hlong. unfold chunk_text. fold cs.
  destruct (Z.leb_spec (len text) cs); [lia|].
  apply chunk_loop_well_formed; [done|constructor].
Qed.

Lemma chunk_text_chunks_well_formed_witness :
  Forall (well_formed_chunk (lit "aaaaaa. aaaaaaaa") 10)
         [lit "aaaaaa."; lit "a. aaaaaaa"; lit "aaaa"].
Proof.
  apply (chunk_text_chunks_well_formed 3 (lit "aaaaaa. aaaaaaaa") (Some 10) (Some 3)).
  - reflexivity.
  - reflexivity.
  - by vm_compute.
Defined.

(** With an overlap for which every window advances, the loop ends
    within [len(text) - start] iterations; it never loses a chunk, and it
    adds one when a character from [start] on is not whitespace. *)
Lemma chunk_loop_runs (text : str) (cs o : Z) :
  0 < o < cs → o ≤ cs / 2 + 2 →
  ∀ (n : nat) (start : Z) (acc : list str),
    0 ≤ start → len text - start ≤ Z.of_nat n →
    ∃ chunks,
      (∀ fuel, (n ≤ fuel)%nat → chunk_loop fuel text cs o (start, acc) = Some chunks) ∧
      (length acc ≤ length chunks)%nat ∧
      (∀ (i : nat) (c : ascii),
          start ≤ Z.of_nat i → text !! i = Some c → isspace c = false →
          (length acc < length chunks)%nat).
Proof.
  intros Ho Ho2. induction n as [|n IH]; intros start acc Hs Hn.
  - exists acc. split; [|split; [done|]].
    + intros fuel _. by apply chunk_loop_done; simpl; lia.
    + intros i c Hi Hc _. apply lookup_lt_Some in Hc. unfold len in *. lia.
  - destruct (Z.lt_ge_cases start (len text)) as [Hlt|Hge].
    2:{ exists acc. split; [|split; [done|]].
        - intros fuel _. by apply chunk_loop_done; simpl; lia.
        - intros i c Hi Hc _. apply lookup_lt_Some in Hc. unfold len in *. lia. }
    pose proof (next_start_advances text cs o start Hs Ho Ho2) as Hadv.
    set (start' := next_start text cs o start) in *.
    set (acc' := append_chunk acc (window_chunk text cs start)).
    destruct (IH start' acc' ltac:(lia) ltac:(lia)) as [chunks [Hrun [Hle Hink]]].
    pose proof (append_chunk_length acc (window_chunk text cs start)) as Hacc.
    fold acc' in Hacc.
    exists chunks. split; [|split; [lia|]].
    + intros fuel Hfuel. destruct fuel as [|fuel]; [lia|].
      rewrite chunk_loop_unfold. simpl.
      destruct (Z.ltb_spec start (len text)); [|lia].
      unfold loop_body. simpl. apply Hrun. lia.
    + intros i c Hi Hc Hcink.
      destruct (Z.lt_ge_cases (Z.of_nat i) (window_end text cs start)) as [Hin|Hout].
      * assert (Hne : window_chunk text cs start ≠ []).
        { apply (strip_nonempty _ c); [|done]. by eapply slice_lookup. }
        unfold acc' in Hle. rewrite append_chunk_nonempty in Hle by done. lia.
      * assert (start' ≤ Z.of_nat i) by (unfold start', next_start; lia).
        specialize (Hink i c ltac:(done) Hc Hcink). lia.
Qed.

(** X2: with an effective overlap [o], [0 < o < chunk_size] and
    [o <= chunk_size // 2 + 2] (the defaults 1000 and 200 among them),
    [chunk_text] terminates on every text, within [len(text)] iterations of
    its window loop. *)
Theorem chunk_text_total (text : str) (chunk_size overlap : option Z) :
  let cs := or_default chunk_size Config.CHUNK_SIZE in
  let o := or_default overlap Config.CHUNK_OVERLAP in
  0 < o < cs → o ≤ cs / 2 + 2 →
  ∃ chunks,
    ∀ fuel, (length text ≤ fuel)%nat →
            chunk_text fuel text chunk_size overlap = Some chunks.
Proof.
  intros cs o Ho Ho2. unfold chunk_text. fold cs o.
  destruct (Z.leb_spec (len text) cs); [by exists [text]|].
  destruct (chunk_loop_runs text cs o Ho Ho2 (length text) 0 [] ltac:(lia)
              ltac:(unfold len; lia)) as [chunks [Hrun _]].
  by exists chunks.
Qed.

Lemma chunk_text_total_witness :
  ∃ chunks,
    ∀ fuel, (length blank_text ≤ fuel)%nat →
            chunk_text fuel blank_text None None = Some chunks.
Proof.
  apply (chunk_text_total blank_text None None).
  - split; reflexivity.
  - vm_compute. discriminate.
Defined.

(** *** [validate_text_input] *)

Lemma nonempty_true (s : str) : nonempty s = true ↔ s ≠ [].
Proof. by destruct s. Qed.

(** The flag of [validate_text_input]. *)
Lemma validate_text_input_flag (text : str) :
  (validate_text_input text).1 = true ↔ 50 ≤ len (strip text).
Proof.
  unfold validate_text_input.
  destruct text as [|x text]; [simpl; unfold len; simpl; split; [done|lia]|].
  cbn [nonempty negb orb].
  destruct (strip (x :: text)) as [|y t] eqn:Hs;
    [simpl; unfold len; simpl; split; [done|lia]|].
  cbn [nonempty negb].
  destruct (Z.ltb_spec (len (y :: t)) 50); simpl; split; (done || lia).
Qed.

(** A text that strips to something holds a character that is not
    whitespace. *)
Lemma strip_ink (s : str) :
  strip s ≠ [] → ∃ (i : nat) (c : ascii), s !! i = Some c ∧ isspace c = false.
Proof.
  intros Hne. destruct (strip s) as [|c t] eqn:Hs; [done|].
  assert (Hc : c ∈ s).
  { destruct (strip_part_of s) as (pre & post & Heq). rewrite Heq, Hs.
    apply elem_of_app. right. apply elem_of_app. left. by left. }
  apply list_elem_of_lookup in Hc as [i Hi]. exists i, c. split; [done|].
  apply (strip_head s). by rewrite Hs.
Qed.

(** X3: a text that [validate_text_input] accepts, chunked with the
    default sizes as [process_document] does, always gives a result, and
    the result has at least one chunk and no empty chunk. *)
Theorem validated_text_has_chunks (text : str) :
  (validate_text_input text).1 = true →
  ∃ chunks,
    (∀ fuel, (length text ≤ fuel)%nat → chunk_text fuel text None None = Some chunks) ∧
    chunks ≠ [] ∧ Forall (λ c, c ≠ []) chunks.
Proof.
  intros Hvalid. apply validate_text_input_flag in Hvalid.
  assert (Hne : strip text ≠ []).
  { intros Hnil. rewrite Hnil in Hvalid. unfold len in Hvalid. simpl in Hvalid. lia. }
  unfold chunk_text. simpl or_default.
  destruct (Z.leb_spec (len text) Config.CHUNK_SIZE) as [Hshort|Hlong].
  - exists [text]. split; [done|]. split; [done|].
    constructor; [|constructor]. intros ->. done.
  - destruct (strip_ink text Hne) as (i & c & Hi & Hc).
    destruct (chunk_loop_runs text Config.CHUNK_SIZE Config.CHUNK_OVERLAP
                ltac:(done) ltac:(by vm_compute) (length text) 0 []
                ltac:(lia) ltac:(unfold len; lia)) as [chunks [Hrun [_ Hink]]].
    exists chunks. split; [done|]. split.
    + specialize (Hink i c ltac:(lia) Hi Hc). intros ->. simpl in Hink. lia.
    + specialize (Hrun (length text) ltac:(lia)).
      apply chunk_loop_well_formed in Hrun; [|done|constructor].
      eapply Forall_impl; [exact Hrun|]. by intros ch [? _].
Qed.

Lemma validated_text_has_chunks_witness :
  let text := repeat "a"%char 50 in
  ∃ chunks,
    (∀ fuel, (length text ≤ fuel)%nat → chunk_text fuel text None None = Some chunks) ∧
    chunks ≠ [] ∧ Forall (λ c, c ≠ []) chunks.
Proof.
  apply (validated_text_has_chunks (repeat "a"%char 50)). reflexivity.
Defined.

End ChunkerMore.

Module DocumentFacts.

Import PyFacts StripFacts ChunkerSpec ChunkSpec PyMore DocumentProcessor ChunkerMore.

(** *** [get_text_stats] *)

Lemma blank_rev (s : str) : blank (rev s) ↔ blank s.
Proof.
  unfold blank. rewrite !Forall_forall.
  split; intros Hb c Hc; apply Hb; by apply elem_of_rev.
Qed.

(** [split()] finds no word exactly in a blank text. *)
Lemma split_ws_acc_nil (cur s : str) :
  split_ws_acc cur s = [] ↔ cur = [] ∧ blank s.
Proof.
  revert cur. induction s as [|c s IH]; intros cur; simpl.
  - destruct cur; split; try done.
    + intros _. split; [done|constructor].
    + by intros [? _].
  - destruct (isspace c) eqn:Hc.
    + destruct cur as [|x cur].
      * rewrite IH. split; intros [? Hb]; (split; [done|]).
        -- by constructor.
        -- by inversion Hb.
      * split; [done|]. by intros [? _].
    + rewrite IH. split; [by intros [? _]|].
      intros [_ Hb]. inversion Hb; congruence.
Qed.

Lemma split_ws_nil (s : str) : split_ws s = [] ↔ blank s.
Proof.
  unfold split_ws. rewrite split_ws_acc_nil. split; [by intros [_ ?]|done].
Qed.

Lemma split_str_aux_scan (sep : str) (cur : str) (c : ascii) (s : str) :
  split_str_aux sep 0 cur (c :: s) =
  if startswith (c :: s) sep
  then rev cur :: split_str_aux sep (length sep - 1) [] s
  else split_str_aux sep 0 (c :: cur) s.
Proof. reflexivity. Qed.

(** The pieces of a split by a blank separator are all blank exactly
    when the text is. *)
Lemma split_str_aux_blank (sep : str) (skip : nat) (cur s : str) :
  blank sep → sep ≠ [] →
  Forall blank (split_str_aux sep skip cur s) ↔ blank cur ∧ blank (drop skip s).
Proof.
  intros Hsep Hne. revert skip cur. induction s as [|c s IH]; intros skip cur.
  - simpl. rewrite drop_nil. rewrite Forall_singleton, blank_rev.
    split; [intros ?; split; [done|constructor]|by intros [? _]].
  - destruct skip as [|k]; [|apply IH].
    rewrite split_str_aux_scan.
    destruct (startswith (c :: s) sep) eqn:Hstart.
    + rewrite Forall_cons, IH, blank_rev.
      apply startswith_spec in Hstart as [t Ht].
      destruct sep as [|x sep]; [done|]. simpl in Ht. injection Ht as -> ->.
      replace (length (x :: sep) - 1)%nat with (length sep) by (simpl; lia).
      rewrite drop_app_length, drop_0.
      unfold blank in *. rewrite Forall_cons, Forall_app.
      apply Forall_cons in Hsep as [Hx Hsep].
      split; [intros (? & _ & ?)|intros (? & ? & ? & ?)]; repeat split; try done.
    + rewrite IH. cbn [drop]. unfold blank. rewrite !Forall_cons.
      split; [intros [[? ?] ?]|intros [? [? ?]]]; done.
Qed.

Lemma split_str_blank (sep s : str) :
  blank sep → sep ≠ [] → Forall blank (split_str sep s) ↔ blank s.
Proof.
  intros Hsep Hne. unfold split_str. rewrite split_str_aux_blank by done.
  simpl. split; [by intros [_ ?]|]. intros ?. split; [constructor|done].
Qed.

Lemma split_on_blank (sep : ascii) (s : str) :
  blank s → Forall blank (split_on sep s).
Proof.
  induction s as [|c s IH]; intros Hb; simpl; [by repeat constructor|].
  inversion Hb as [|? ? Hc Hs]; subst. specialize (IH Hs).
  destruct (Ascii.eqb c sep); [constructor; [constructor|done]|].
  destruct (split_on sep s) as [|w ws]; [by repeat constructor|].
  inversion IH; subst. constructor; [by constructor|done].
Qed.

Lemma replace_char_blank (a b : ascii) (s : str) :
  isspace a = false → blank s → replace_char a b s = s.
Proof.
  intros Ha Hb. induction Hb as [|c s Hc Hs IH]; simpl; [done|].
  rewrite IH. destruct (Ascii.eqb_spec c a) as [->|]; [congruence|done].
Qed.

Lemma filter_length_zero {A} (P : A → Prop) `{∀ x, Decision (P x)} (l : list A) :
  length (filter P l) = 0%nat ↔ Forall (λ x, ¬ P x) l.
Proof.
  induction l as [|x l IH]; simpl; [split; [constructor|done]|].
  rewrite filter_cons. destruct (decide (P x)); simpl.
  - split; [done|]. intros Hall. by inversion Hall.
  - rewrite IH. split; [by constructor|]. intros Hall. by inversion Hall.
Qed.

Lemma nonempty_strip_false (p : str) : ¬ nonempty (strip p) = true ↔ blank p.
Proof.
  rewrite <- strip_nil_iff. destruct (strip p); simpl; split; try done.
Qed.

(** X4: the statistics of a text. The character count is its length; it
    has no word exactly when it is blank (empty or whitespace only), and
    no paragraph exactly when it is blank; a blank text has no sentence,
    so a text with a sentence has a word. *)
Theorem text_stats_of_blank (text : str) :
  let s := get_text_stats text in
  characters s = len text ∧
  (words s = 0 ↔ blank text) ∧
  (paragraphs s = 0 ↔ blank text) ∧
  (blank text → sentences s = 0) ∧
  (0 < sentences s → 0 < words s).
Proof.
  assert (Hwords : words (get_text_stats text) = 0 ↔ blank text).
  { simpl. unfold len. rewrite <- split_ws_nil.
    destruct (split_ws text); simpl; split; (done || lia). }
  assert (Hsent : blank text → sentences (get_text_stats text) = 0).
  { intros Hb. unfold get_text_stats. cbn [sentences].
    rewrite (replace_char_blank "!"%char) by done.
    rewrite (replace_char_blank "?"%char) by done.
    unfold nonblank_pieces, len.
    assert (Hz : length (filter (λ p, nonempty p = true)
                           (map strip (split_on "."%char text))) = 0%nat); [|lia].
    apply filter_length_zero, Forall_map.
    eapply Forall_impl; [by apply split_on_blank|].
    intros p Hp. simpl. by apply nonempty_strip_false. }
  simpl. split; [done|]. split; [exact Hwords|]. split; [|split; [exact Hsent|]].
  - unfold len.
    assert (Hiff : length (filter (λ p, nonempty (strip p) = true)
                             (split_str [nl; nl] text)) = 0%nat ↔ blank text).
    { rewrite filter_length_zero.
      rewrite <- (split_str_blank [nl; nl] text); [|by repeat constructor|done].
      apply Forall_proper; [|done]. intros p. apply nonempty_strip_false. }
    rewrite <- Hiff. lia.
  - intros Hpos.
    destruct (Z.eq_dec (words (get_text_stats text)) 0) as [Hz|Hnz].
    + apply Hwords, Hsent in Hz. simpl in Hz. lia.
    + simpl in *. unfold len in *. lia.
Qed.

(** *** [process_uploaded_file] *)

Lemma last_rev {A} (l : list A) : last (rev l) = head l.
Proof. destruct l as [|x l]; [done|]. simpl. apply last_snoc. Qed.

Lemma rstrip_last (s : str) (c : ascii) : last (rstrip s) = Some c → isspace c = false.
Proof. unfold rstrip. rewrite last_rev. apply lstrip_head. Qed.

(** A stripped text does not end with whitespace. *)
Lemma strip_last (s : str) (c : ascii) : last (strip s) = Some c → isspace c = false.
Proof. unfold strip. apply rstrip_last. Qed.

Lemma stripped_ends (text : str) :
  text ≠ [] → strip text = text → starts_nonblank text ∧ ends_nonblank text.
Proof.
  intros Hne Hs. unfold starts_nonblank, ends_nonblank. split.
  - destruct text as [|c t] eqn:Ht; [done|]. simpl.
    by rewrite (strip_head (c :: t) c) by (by rewrite Hs).
  - destruct (last text) as [c|] eqn:Hl.
    + simpl. by rewrite (strip_last text c) by (by rewrite Hs).
    + by apply last_None in Hl.
Qed.

(** A file type equal to one of the accepted ones, or among some of
    them, is among the accepted ones. *)
Ltac known_type :=
  match goal with
  | Heq : ?t = lit _ |- ?t ∈ _ => rewrite Heq; repeat constructor
  | Hin : ?t ∈ _ |- ?t ∈ _ =>
      repeat (apply elem_of_cons in Hin as [Heq|Hin]; [rewrite Heq; repeat constructor|]);
      by apply elem_of_nil in Hin
  end.

Section Upload.
Context `{R : Readers}.

Lemma extractors_strip (file : uploaded) (text : str) :
  _extract_from_pdf file = Some text ∨ _extract_from_docx file = Some text
  ∨ _extract_from_txt file = Some text →
  strip text = text.
Proof.
  unfold _extract_from_pdf, _extract_from_docx, _extract_from_txt.
  intros [Hx|[Hx|Hx]].
  - destruct (pdf_pages file); simplify_eq/=. apply strip_strip.
  - destruct (docx_paragraphs file); simplify_eq/=. apply strip_strip.
  - revert Hx. generalize encodings. intros encs.
    induction encs as [|e encs IH]; simpl; [done|].
    destruct (decode_as file e); [|done|done]. intros [= <-]. apply strip_strip.
Qed.

Lemma checked_true (extracted : option str) (text : str) :
  checked extracted = Some (text, true) →
  extracted = Some text ∧ strip text ≠ [].
Proof.
  unfold checked. destruct extracted as [t|]; simpl; [|done].
  destruct (strip t) eqn:Hs; simpl; [done|]. intros [= <-]. by rewrite Hs.
Qed.

Lemma checked_false (extracted : option str) (text : str) :
  checked extracted = Some (text, false) → text = [].
Proof.
  unfold checked. destruct extracted as [t|]; simpl; [|done].
  destruct (negb (nonempty (strip t))); by intros [= <-].
Qed.

(** X5: when [process_uploaded_file] reports success, the file is at most
    10 MB, the last dot-separated part of its name is pdf, docx, doc or txt
    in any letter case, and the text returned is not empty and neither
    starts nor ends with whitespace. When it reports failure the text
    returned is empty. *)
Theorem process_uploaded_file_result (file : uploaded) (text : str) (ok : bool) :
  process_uploaded_file file = (text, ok) →
  if ok then
    file_size file ≤ 10 * 1024 * 1024 ∧
    lower (last_piece (split_on "."%char (file_name file)))
      ∈ [lit "pdf"; lit "docx"; lit "doc"; lit "txt"] ∧
    text ≠ [] ∧ strip text = text ∧
    starts_nonblank text ∧ ends_nonblank text
  else text = [].
Proof.
  unfold process_uploaded_file. intros Hres. destruct ok.
  - assert (Hok : process_body file = Some (text, true)).
    { destruct (process_body file) as [[t o]|]; simpl in Hres; by simplify_eq. }
    unfold process_body in Hok.
    unfold too_large, ConfigMore.MAX_FILE_SIZE_MB in Hok.
    destruct (Z.ltb_spec (10 * (1024 * 1024)) (file_size file)); [done|].
    split; [lia|].
    set (file_type := lower _) in *.
    assert (Hgood : file_type ∈ [lit "pdf"; lit "docx"; lit "doc"; lit "txt"]
                    ∧ ∃ extracted, checked extracted = Some (text, true)
                        ∧ (extracted = _extract_from_pdf file
                           ∨ extracted = _extract_from_docx file
                           ∨ extracted = _extract_from_txt file)).
    { repeat case_bool_decide; simplify_eq.
      - split; [known_type|]. eexists. split; [exact Hok|by left].
      - split; [known_type|]. eexists. split; [exact Hok|right; by left].
      - split; [known_type|]. eexists. split; [exact Hok|right; by right]. }
    destruct Hgood as [Htype (extracted & Hchk & Hfrom)].
    split; [done|].
    apply checked_true in Hchk as [-> Hne].
    assert (Hs : strip text = text).
    { apply (extractors_strip file).
      destruct Hfrom as [Hx|[Hx|Hx]]; symmetry in Hx; tauto. }
    assert (Hne' : text ≠ []) by (intros ->; done).
    split; [done|]. split; [done|]. by apply stripped_ends.
  - destruct (process_body file) as [[t o]|] eqn:Hb; simpl in Hres;
      simplify_eq; [|done].
    unfold process_body in Hb.
    repeat (case_match; simplify_eq/=; try done); by eapply checked_false.
Qed.

End Upload.

Lemma process_uploaded_file_result_witness :
  let text := lit "first line" ++ [nl] ++ lit "second line" in
  2048 ≤ 10 * 1024 * 1024 ∧
  lower (last_piece (split_on "."%char (lit "Notes.v2.TXT")))
    ∈ [lit "pdf"; lit "docx"; lit "doc"; lit "txt"] ∧
  text ≠ [] ∧ strip text = text ∧
  starts_nonblank text ∧ ends_nonblank text.
Proof.
  apply (@process_uploaded_file_result ToyReaders.MemoryReaders ToyReaders.notes_txt
           (lit "first line" ++ [nl] ++ lit "second line") true).
  by vm_compute.
Defined.

End DocumentFacts.

Module EmbeddingsMore.

Import PyFacts Embeddings EmbeddingsSpec EmbeddingsFacts.

Section More.
Context `{P : Provider}.

(** *** The batches *)

Lemma batch_size_bounds (text_chunks : list str) (j : nat) :
  (j < (length text_chunks + batch_size - 1) / batch_size)%nat →
  (j * batch_size < length text_chunks)%nat.
Proof.
  unfold batch_size. intros Hj.
  pose proof (Nat.div_mod (length text_chunks + 10 - 1) 10 ltac:(lia)).
  pose proof (Nat.mod_upper_bound (length text_chunks + 10 - 1) 10 ltac:(lia)).
  lia.
Qed.

(** X6: [create_embeddings] sends the chunks to the provider in their
    order, in [ceil(n / 10)] requests; no request is empty and none carries
    more than 10 chunks. *)
Theorem batches_partition (text_chunks : list str) :
  concat (batches text_chunks) = text_chunks ∧
  length (batches text_chunks) = ((length text_chunks + 9) / 10)%nat ∧
  Forall (λ batch, (1 ≤ length batch ≤ 10)%nat) (batches text_chunks).
Proof.
  split; [apply batches_concat|]. split.
  - unfold batches, range_step, batch_size. rewrite !length_map, length_seq.
    f_equal. lia.
  - unfold batches, range_step. rewrite !Forall_map. apply Forall_forall.
    intros j Hj. apply elem_of_seq in Hj as [_ Hj]. simpl in Hj.
    apply batch_size_bounds in Hj. simpl.
    rewrite slice_nat by lia. rewrite length_take, length_drop.
    unfold batch_size in *. lia.
Qed.

(** *** What [search] returns *)

Lemma index_Some_elem {A} (l : list A) (i : Z) (x : A) :
  Py.index l i = Some x → x ∈ l.
Proof.
  unfold Py.index. repeat case_match; try done; intros Hx;
    by eapply list_elem_of_lookup_2.
Qed.

Lemma collect_from (cs : list str) (hits : list (Z * score))
    (acc results : list (str * score)) :
  collect cs hits acc = Some results →
  Forall (λ r, r.1 ∈ cs) acc → Forall (λ r, r.1 ∈ cs) results.
Proof.
  revert acc. induction hits as [|[idx dist] hits IH]; intros acc; simpl.
  - by intros [= <-].
  - destruct (idx <? len cs).
    + destruct (Py.index cs idx) as [c|] eqn:Hc; [|done].
      intros Hrun Hacc. apply (IH _ Hrun). apply Forall_app. split; [done|].
      constructor; [|constructor]. simpl. by eapply index_Some_elem.
    + apply IH.
Qed.

(** X7: in every state of the store and whatever the provider answers,
    each text that [search] returns is one of the stored chunks. *)
Theorem search_returns_stored_chunks (w : World) (st : Store) (query : str)
    (top_k : option Z) :
  Forall (λ r, r.1 ∈ chunks st) (search w st query top_k).2.
Proof.
  unfold search, search_body.
  destruct (index st) as [ix|]; [|constructor].
  destruct (chunks st) as [|c cs] eqn:Hcs; [constructor|].
  destruct (_get_embeddings_batch w [query]) as [w' [[|qe rest]|]]; simpl;
    try constructor.
  destruct (index_search ix _ _) as [hits|]; simpl; [|constructor].
  destruct (collect (c :: cs) hits []) as [results|] eqn:Hres; simpl; [|constructor].
  eapply collect_from; [exact Hres|constructor].
Qed.

Lemma search_guard (w : World) (st : Store) (query : str) (top_k : option Z) :
  is_ready st = false → search w st query top_k = (w, []).
Proof.
  unfold is_ready, search, search_body.
  destruct (index st) as [ix|]; [|done].
  destruct (chunks st); [done|]. unfold len. simpl. done.
Qed.

(** X8: on a store that is not ready (no index, or no chunk), [search]
    returns the empty list without a request to the provider, and
    [is_ready] is false. *)
Theorem search_not_ready (w : World) (st : Store) (query : str) (top_k : option Z) :
  index st = None ∨ chunks st = [] →
  is_ready st = false ∧ search w st query top_k = (w, []).
Proof.
  intros Hnot.
  assert (Hr : is_ready st = false).
  { unfold is_ready. destruct Hnot as [->| ->]; [done|]. by destruct (index st). }
  split; [done|]. by apply search_guard.
Qed.

(** *** Builds *)

(** X9: what a call of [create_embeddings] leaves behind, on every path.
    The dimension is kept. With no chunk the call returns [False] and
    touches nothing; otherwise the chunks are replaced, whether the build
    succeeds or not. When it returns [True] the index is new, not empty,
    and each of its rows has the store's dimension. When it returns
    [False] the index is the one from before the call, or, if [index.add]
    refused the vectors, a new index with no row. *)
Theorem create_embeddings_outcome (w : World) (st : Store) (text_chunks : list str) :
  let result := create_embeddings w st text_chunks in
  let st' := result.1.2 in
  dimension st' = dimension st ∧
  (text_chunks = [] → result = (w, st, false)) ∧
  (text_chunks ≠ [] → chunks st' = text_chunks) ∧
  (result.2 = true →
   ∃ ix, index st' = Some ix ∧ d ix = dimension st ∧ rows ix ≠ [] ∧
         Forall (λ v, vdim v = dimension st) (rows ix)) ∧
  (result.2 = false →
   index st' = index st ∨ index st' = Some (IndexFlatIP (dimension st))).
Proof.
  cbn zeta. unfold create_embeddings.
  destruct text_chunks as [|c cs] eqn:Hcs; [by repeat split; auto|]. rewrite <- Hcs.
  assert (Hne : text_chunks ≠ []) by (by rewrite Hcs).
  destruct (embed_batches w _ []) as [w1 [embeddings|]]; [|by repeat split; auto].
  destruct (np_array embeddings) as [arr|] eqn:Harr; [|by repeat split; auto].
  unfold index_add. cbn [d rows IndexFlatIP set_chunks set_index dimension].
  destruct (forallb _ arr) eqn:Hall; [|by repeat split; auto].
  cbn [fst snd index chunks dimension set_index app].
  split; [done|]. split; [done|]. split; [done|]. split; [|done].
  intros _. eexists. split; [done|]. cbn [d rows]. split; [done|]. split.
  - unfold np_array in Harr. destruct embeddings as [|v vs]; [done|].
    destruct (forallb _ vs); [|done]. by injection Harr as <-.
  - apply Forall_forall. intros v Hv.
    rewrite forallb_forall in Hall. apply Nat.eqb_eq, Hall. by apply list_elem_of_In.
Qed.

End More.

(** *** Runs with the scripted provider *)

Lemma search_not_ready_witness :
  @is_ready Toy.ZNumeric (@init Toy.ZNumeric) = false ∧
  @search Toy.ZNumeric Toy.Scripted [true] (@init Toy.ZNumeric) (lit "alpha") (Some 3)
  = ([true], []).
Proof. apply (@search_not_ready Toy.ZNumeric Toy.Scripted). by left. Defined.

End EmbeddingsMore.

Module DedupMore.

Import Dedup DedupFacts.

Section Threshold.
Variable similarity_threshold : float.

(** A chunk that the loop keeps is too similar neither to a remembered
    chunk nor to a chunk kept before it. *)
Lemma dedup_loop_fresh (seen : gset str) (chunks : list str) (j : nat) (b : str) :
  dedup_loop similarity_threshold seen chunks !! j = Some b →
  (∀ s, s ∈ seen → too_similar similarity_threshold (normalize b) s = false) ∧
  (∀ (i : nat) (a : str), (i < j)%nat →
     dedup_loop similarity_threshold seen chunks !! i = Some a →
     too_similar similarity_threshold (normalize b) (normalize a) = false).
Proof.
  revert seen j. induction chunks as [|c rest IH]; intros seen j; simpl; [done|].
  destruct (is_duplicate similarity_threshold (normalize c) seen) eqn:Hdup;
    [apply IH|].
  destruct j as [|j]; simpl.
  - intros [= <-]. split; [|intros i a Hi; lia].
    intros s Hs. destruct (too_similar _ (normalize c) s) eqn:Hsim; [|done].
    assert (Hd : is_duplicate similarity_threshold (normalize c) seen = true)
      by (apply is_duplicate_spec; eauto).
    congruence.
  - intros Hb. destruct (IH _ _ Hb) as [Hseen Hearlier]. split.
    + intros s Hs. apply Hseen. apply elem_of_union. by right.
    + intros [|i] a Hi; simpl.
      * intros [= <-]. apply Hseen. apply elem_of_union. left. by apply elem_of_singleton.
      * intros Ha. apply (Hearlier i a); [lia|done].
Qed.

(** X10: in the result of [merge_overlapping_chunks] no chunk is too
    similar to a chunk that comes before it. *)
Theorem merged_chunks_are_dissimilar (chunks : list str) (i j : nat) (a b : str) :
  let merged := merge_overlapping_chunks chunks similarity_threshold in
  (i < j)%nat → merged !! i = Some a → merged !! j = Some b →
  too_similar similarity_threshold (normalize b) (normalize a) = false.
Proof.
  intros merged Hij Ha Hb. unfold merged, merge_overlapping_chunks in *.
  destruct (Nat.leb_spec (length chunks) 1) as [Hshort|Hlong].
  - apply lookup_lt_Some in Hb. lia.
  - destruct (dedup_loop_fresh ∅ chunks j b Hb) as [_ Hearlier].
    by apply (Hearlier i a).
Qed.

End Threshold.

Lemma merged_chunks_are_dissimilar_witness :
  too_similar default_threshold (normalize (lit "foo bar")) (normalize (lit "Hello world"))
  = false.
Proof.
  apply (merged_chunks_are_dissimilar default_threshold
           [lit "Hello world"; lit "hello   WORLD"; lit "foo bar"] 0 1);
    [lia|by vm_compute|by vm_compute].
Defined.

End DedupMore.

Module OpenAIHelperMoreFacts.

Import PyFacts StripFacts OpenAIHelper InsightsSpec OpenAIHelperFacts
       OpenAIHelperMore PyMore DocumentProcessor ChunkSpec.

Section Calls.
Context `{E : Encoding} `{C : Completions}.

(** *** [extract_insights] *)

(** X11: [extract_insights] returns [None] exactly when [encode] refuses
    the text, so that [count_tokens] raises, or the completion call gives
    no text; otherwise it returns a dictionary with exactly the keys
    entities, themes and action_items, whatever the model wrote. *)
Theorem extract_insights_result (model text : str) :
  (extract_insights model text = None ↔
   encodes text = false ∨
   create model (insights_messages (insights_prompt (summary_text model text)))
     TEMPERATURE_EXTRACTION 1000 = None) ∧
  ∀ m, extract_insights model text = Some m → dom m = section_keys.
Proof.
  unfold extract_insights, checked_count_tokens.
  destruct (encodes text); simpl; [|split; [split; auto|done]].
  destruct (create model _ TEMPERATURE_EXTRACTION 1000) as [response|] eqn:Hcall; simpl.
  - destruct (parse_lines_inv (split_on nl (strip response)) [] _ parse_inv_initial)
      as [[cur m] [Hrun (Hdom & _)]].
    unfold _parse_insights. rewrite Hrun. simpl. split.
    + split; [done|]. by intros [?|?].
    + by intros ? [= <-].
  - split; [|done]. split; auto.
Qed.

(** *** [generate_keywords] *)

Lemma split_on_no_sep (sep : ascii) (s : str) :
  Forall (λ piece, sep ∉ piece) (split_on sep s).
Proof.
  induction s as [|c s IH]; simpl; [repeat constructor; by apply not_elem_of_nil|].
  destruct (Ascii.eqb_spec c sep) as [->|Hne].
  - constructor; [apply not_elem_of_nil|done].
  - destruct (split_on sep s) as [|w ws].
    + repeat constructor. intros Hin. apply list_elem_of_singleton in Hin. congruence.
    + inversion IH as [|? ? Hw Hws]; subst. constructor; [|done].
      intros Hin. apply elem_of_cons in Hin as [?|?]; [congruence|done].
Qed.

Lemma part_of_elem (s piece : str) (c : ascii) : part_of s piece → c ∈ piece → c ∈ s.
Proof.
  intros (pre & post & ->) Hc. apply elem_of_app. right. apply elem_of_app. by left.
Qed.

(** Every line kept is a single line, stripped and not empty. *)
Lemma keyword_lines_shape (content : str) :
  Forall (λ k, k ≠ [] ∧ strip k = k ∧ nl ∉ k) (keyword_lines content).
Proof.
  unfold keyword_lines, nonblank_pieces.
  apply Forall_forall. intros k Hk.
  apply list_elem_of_filter in Hk as [Hne Hk].
  apply list_elem_of_fmap in Hk as [piece [-> Hpiece]].
  split; [by apply ChunkerMore.nonempty_true|]. split; [apply strip_strip|].
  intros Hnl. pose proof (split_on_no_sep nl content) as Hall.
  rewrite Forall_forall in Hall. apply (Hall piece Hpiece).
  eapply part_of_elem; [apply strip_part_of|done].
Qed.

(** X12: for [max_keywords >= 0], what [generate_keywords] returns is at
    most [max_keywords] keywords, the first non-blank lines of the
    response in their order; each is a single line, not empty, with no
    whitespace at either end. *)
Theorem generate_keywords_shape (model text : str) (max_keywords : Z)
    (keywords : list str) :
  0 ≤ max_keywords →
  generate_keywords model text max_keywords = Some keywords →
  len keywords ≤ max_keywords ∧
  Forall (λ k, k ≠ [] ∧ strip k = k ∧ nl ∉ k) keywords ∧
  ∃ response,
    create model
      (keywords_messages (keywords_prompt (keywords_text model text) max_keywords))
      0x1.999999999999ap-3%float 200 = Some response ∧
    keywords = take (Z.to_nat max_keywords) (keyword_lines (strip response)).
Proof.
  intros Hmax. unfold generate_keywords, checked_count_tokens.
  destruct (encodes text); simpl; [|done].
  destruct (create model _ _ 200) as [response|] eqn:Hcall; simpl; [|done].
  intros [= <-].
  assert (Hslice : slice (keyword_lines (strip response)) 0 max_keywords
                   = take (Z.to_nat max_keywords) (keyword_lines (strip response))).
  { destruct (Z.le_gt_cases max_keywords (len (keyword_lines (strip response)))).
    - rewrite slice_inside by lia. simpl. f_equal. lia.
    - rewrite slice_to_end by lia. change (Z.to_nat 0) with 0%nat. rewrite drop_0. symmetry. apply take_ge.
      unfold len in *. lia. }
  rewrite Hslice. split; [|split].
  - unfold len. rewrite length_take. lia.
  - apply Forall_take, keyword_lines_shape.
  - by exists response.
Qed.

End Calls.

(** With the character encoding, a text that holds the end-of-text marker
    gets no insights and no keywords, although the model answers. *)
Lemma refused_text_gets_nothing :
  let text := lit "before <|endoftext|> after" in
  @extract_insights ToyModels.CharEncoding ToyModels.listing (lit "gpt-4") text = None ∧
  @generate_keywords ToyModels.CharEncoding ToyModels.listing (lit "gpt-4") text 10 = None ∧
  @generate_summary ToyModels.CharEncoding ToyModels.listing (lit "gpt-4") text 500 = None.
Proof. by vm_compute. Qed.

Lemma generate_keywords_shape_witness :
  let keywords := [lit "retrieval"; lit "chunking"; lit "embeddings"] in
  len keywords ≤ 3 ∧
  Forall (λ k, k ≠ [] ∧ strip k = k ∧ nl ∉ k) keywords.
Proof.
  destruct (@generate_keywords_shape ToyModels.CharEncoding ToyModels.listing
              (lit "gpt-4") (lit "some text") 3
              [lit "retrieval"; lit "chunking"; lit "embeddings"])
    as (Hlen & Hall & _).
  - lia.
  - by vm_compute.
  - split; [exact Hlen|exact Hall].
Defined.

End OpenAIHelperMoreFacts.

Module AppFacts.

Import PyFacts StripFacts Chunker ChunkerFacts ChunkerMore Embeddings EmbeddingsSpec
       EmbeddingsFacts EmbeddingsMore OpenAIHelper OpenAIHelperMore PyMore
       DocumentProcessor App AppSpec.

(** *** Histories *)





Section Session.
Context `{P : Provider} `{C : Completions} `{G : Generator} `{K : Tiktoken}.



(** The chunker with the default sizes gives a result on every text. *)
Lemma chunk_text_default_runs (text : str) (fuel : nat) :
  (length text ≤ fuel)%nat → ∃ text_chunks, chunk_text fuel text None None = Some text_chunks.
Proof.
  intros Hfuel. unfold chunk_text. simpl or_default.
  destruct (Z.leb_spec (len text) Config.CHUNK_SIZE); [by eexists|].
  destruct (chunk_loop_runs text Config.CHUNK_SIZE Config.CHUNK_OVERLAP
              ltac:(done) ltac:(by vm_compute) (length text) 0 []
              ltac:(lia) ltac:(unfold len; lia)) as [chunks [Hrun _]].
  exists chunks. by apply Hrun.
Qed.

(** X14: [process_document] with the default chunk sizes always completes,
    and the session then holds the new text and its statistics. When
    [OpenAIHelper(...)] raises, [processed] is [False], no request went
    to the embedding provider, and the history, the store, the summary,
    the insights and the keywords are the ones from before. Otherwise
    [processed] is [True] and the history is empty; the store is the one
    built from scratch on the chunks of the new text when
    [create_embeddings] returned [True], and the previous one when it
    returned [False]. In both cases, with a provider that answers one
    vector per text, a store that was ready with a row per chunk is
    followed by one that is. *)
Theorem process_document_result (w : World) (s : Session) (text : str) (fuel : nat) :
  (length text ≤ fuel)%nat →
  ∃ w' s',
    process_document fuel w s text = Some (w', s') ∧
    document_text s' = Some text ∧
    document_stats s' = Some (get_text_stats text) ∧
    match init_encoding (init_model (Some (selected_model s))) with
    | None =>
        w' = w ∧ processed s' = false ∧ chat_history s' = chat_history s ∧
        embedding_store s' = embedding_store s ∧
        summary s' = summary s ∧ insights s' = insights s ∧ keywords s' = keywords s
    | Some _ =>
        ∃ text_chunks,
          chunk_text fuel text None None = Some text_chunks ∧
          let build := create_embeddings w init text_chunks in
          w' = build.1.1 ∧
          embedding_store s' = (if build.2 then Some build.1.2 else embedding_store s) ∧
          processed s' = true ∧ chat_history s' = []
    end ∧
    (one_per_text → store_built s → store_built s').
Proof.
  intros Hfuel.
  destruct (chunk_text_default_runs text fuel Hfuel) as [text_chunks Hchunks].
  unfold process_document.
  destruct (init_encoding _) as [E|]; [|by eexists _, _].
  rewrite Hchunks. cbn [mbind option_bind].
  destruct (create_embeddings w init text_chunks) as [[w' store] ok] eqn:Hbuild.
  eexists w', _. split; [done|]. cbn [document_text document_stats].
  split; [done|]. split; [done|]. split.
  - exists text_chunks. split; [done|]. cbn zeta. rewrite Hbuild. by cbn.
  - cbn [embedding_store]. destruct ok.
    + intros Hhonest _ st [= <-].
      destruct (create_embeddings_success w w' init store text_chunks Hhonest Hbuild)
        as (Hready & Hcs & ix & Hix & _ & Hrows).
      split; [done|]. exists ix. split; [done|]. by rewrite Hcs.
    + intros _ Hbuilt. exact Hbuilt.
Qed.

End Session.

(** When the encoding cannot be loaded, [process_document] stores the
    text and its statistics, leaves [processed] at [False] and keeps the
    exchange that the session held. *)
Lemma process_document_offline :
  ∃ s', @process_document Toy.ZNumeric Toy.Scripted ToyModels.listing ToyModels.Offline
          15 [true] toy_session (lit "gamma delta") = Some ([true], s') ∧
        document_text s' = Some (lit "gamma delta") ∧
        processed s' = false ∧
        chat_history s' = chat_history toy_session ∧
        embedding_store s' = Some Toy.built_store.
Proof. by eexists. Qed.


Lemma process_document_result_witness :
  let text := lit "alpha beta beta" in
  ∃ (w' : @World Toy.ZNumeric Toy.Scripted) (s' : @Session Toy.ZNumeric),
    @process_document Toy.ZNumeric Toy.Scripted ToyModels.listing ToyModels.OneModel
      15 [true] toy_session text = Some (w', s') ∧
    document_text s' = Some text ∧
    document_stats s' = Some (get_text_stats text) ∧
    match @init_encoding ToyModels.OneModel (init_model (Some (selected_model toy_session)))
    with
    | None =>
        w' = [true] ∧ processed s' = false ∧
        chat_history s' = chat_history toy_session ∧
        embedding_store s' = embedding_store toy_session ∧
        summary s' = summary toy_session ∧ insights s' = insights toy_session ∧
        keywords s' = keywords toy_session
    | Some _ =>
        ∃ text_chunks,
          chunk_text 15 text None None = Some text_chunks ∧
          let build := @create_embeddings Toy.ZNumeric Toy.Scripted [true]
                         (@init Toy.ZNumeric) text_chunks in
          w' = build.1.1 ∧
          embedding_store s'
          = (if build.2 then Some build.1.2 else embedding_store toy_session) ∧
          processed s' = true ∧ chat_history s' = []
    end ∧
    (@one_per_text Toy.ZNumeric Toy.Scripted → store_built toy_session → store_built s').
Proof.
  apply (@process_document_result Toy.ZNumeric Toy.Scripted ToyModels.listing
           ToyModels.OneModel [true] toy_session (lit "alpha beta beta") 15).
  simpl. lia.
Defined.

End AppFacts.

Module ConfigFacts.

Import PyMore ConfigMore.

(** X15: [validate_api_key] accepts exactly the keys that start with
    [sk-] and are not the placeholder [sk-...]: the tests for an empty
    key and for the other placeholder never decide anything. In
    particular the bare prefix [sk-] is accepted. *)
Theorem validate_api_key_accepts (api_key : str) :
  validate_api_key api_key = true ↔
  startswith api_key (lit "sk-") = true ∧ api_key ≠ lit "sk-...".
Proof.
  unfold validate_api_key.
  destruct api_key as [|c rest]; [by split; [|intros [? _]]|].
  cbn [nonempty negb].
  case_bool_decide as Hin.
  - split; [done|]. intros [Hsw Hne].
    apply elem_of_cons in Hin as [Heq|Hin]; [by rewrite Heq in Hsw|].
    apply elem_of_cons in Hin as [Heq|Hin]; [done|].
    by apply elem_of_nil in Hin.
  - destruct (startswith (c :: rest) (lit "sk-")) eqn:Hsw; cbn [negb].
    + split; [|done]. intros _. split; [done|]. intros Heq. apply Hin. rewrite Heq.
      apply elem_of_cons. right. apply elem_of_cons. by left.
    + split; [done|]. by intros [? _].
Qed.

End ConfigFacts.
